(** * go-xmldom: the token-to-tree builder of [dom.go]

    A shallow embedding of [domParserSettings.Parse] (dom.go, lines 98-175)
    and of the data it builds, followed by the properties of the builder.

    - The token source is Go's [encoding/xml] decoder.  It is external to
      the repository, so it is modelled by what successive calls of
      [p.Token()] return: a list of (token, error) pairs, either of which
      may be nil.
    - [*Node] pointers are addresses into an arena (a list of nodes);
      [new(Node)] allocates at the end of the arena, a nil pointer is
      [None].  Mutation through a pointer is an update of the arena.
    - A nil-pointer dereference is a run-time panic: [step] returns [None]
      and [Parse] returns [Panic]. *)

From stdpp Require Import base option list strings.

(** ** encoding/xml as seen from [Parse] *)

Inductive error :=
  | io_EOF
  | SyntaxError (msg : string).

Global Instance error_eq_dec : EqDecision error.
Proof. solve_decision. Defined.

Module xml.

(** [xml.Name]: a namespace identifier and a local name. *)
Record Name := { Space : string; Local : string }.

(** [xml.Attr]: the decoder hands over no prefix, only [Name] and [Value]. *)
Record Attr := { AName : Name; Value : string }.

(** The token types the decoder produces.  [Parse] has a case for five
    of them; [Comment] is the sixth. *)
Inductive Token :=
  | StartElement (name : Name) (attr : list Attr)
  | EndElement (name : Name)
  | CharData (data : string)
  | Comment (data : string)
  | ProcInst (target : string) (inst : string)
  | Directive (data : string).

(** One call of [p.Token()] returns a pair [(Token, error)]; both are
    interface values and either may be nil. *)
Definition pull : Type := option Token * option error.

(** A decoder is the list of the results its next calls will return.
    Once the list is used up the input is at its end, where [Token]
    returns [nil, io.EOF] on every further call. *)
Definition Decoder : Type := list pull.

Definition Decoder_Token (p : Decoder) : pull * Decoder :=
  match p with
  | [] => ((None, Some io_EOF), [])
  | r :: p' => (r, p')
  end.

End xml.

(** ** Constants (dom.go, lines 13-22) *)

Definition xmlPrefix : string := "xml".
Definition xmlUrl : string := "http://www.w3.org/XML/1998/namespace".
Definition xmlnsPrefix : string := "xmlns".
Definition xmlnsUrl : string := "http://www.w3.org/2000/xmlns".
Definition xlinkPrefix : string := "xlink".
Definition xlinkUrl : string := "http://www.w3.org/1999/xlink".
Definition xsiPrefix : string := "xsi".
Definition xsiUrl : string := "http://www.w3.org/2001/XMLSchema-instance".

(** ** The DOM *)

(** The struct declarations are in files of the package other than dom.go;
    the fields below are the ones [Parse] reads and writes. *)

Record Attribute := {
  Attribute_Name : string;
  Attribute_Value : string }.

(** A parse allocates one [Document]; a node's [Document] field can only
    point to it. *)
Inductive DocumentRef := the_Document.

Record Node := {
  Node_Document : option DocumentRef;
  Node_Parent : option nat;
  Node_Name : string;
  Node_Attributes : list Attribute;
  Node_Text : string;
  Node_Children : list nat }.

Record Document := {
  Root : option nat;
  ProcInst : string;
  Directives : list string }.

Global Instance Attribute_eq_dec : EqDecision Attribute.
Proof. solve_decision. Defined.
Global Instance DocumentRef_eq_dec : EqDecision DocumentRef.
Proof. solve_decision. Defined.
Global Instance Node_eq_dec : EqDecision Node.
Proof. solve_decision. Defined.
Global Instance Document_eq_dec : EqDecision Document.
Proof. solve_decision. Defined.

(** Field assignments through a pointer. *)
Definition set_Text (v : string) (n : Node) : Node :=
  {| Node_Document := Node_Document n; Node_Parent := Node_Parent n;
     Node_Name := Node_Name n; Node_Attributes := Node_Attributes n;
     Node_Text := v; Node_Children := Node_Children n |}.

Definition append_Child (c : nat) (n : Node) : Node :=
  {| Node_Document := Node_Document n; Node_Parent := Node_Parent n;
     Node_Name := Node_Name n; Node_Attributes := Node_Attributes n;
     Node_Text := Node_Text n; Node_Children := Node_Children n ++ [c] |}.

Definition set_Root (r : option nat) (d : Document) : Document :=
  {| Root := r; ProcInst := ProcInst d; Directives := Directives d |}.

Definition set_ProcInst (v : string) (d : Document) : Document :=
  {| Root := Root d; ProcInst := v; Directives := Directives d |}.

Definition append_Directive (v : string) (d : Document) : Document :=
  {| Root := Root d; ProcInst := ProcInst d; Directives := Directives d ++ [v] |}.

(** [new(Document)]: every field has its zero value. *)
Definition new_Document : Document :=
  {| Root := None; ProcInst := ""; Directives := [] |}.

(** ** What [Parse] calls but dom.go does not define *)

(** [bytes.TrimSpace] is Go's library function; [stringifyProcInst] and
    [stringifyDirective] are defined in another file of the package.
    [Parse] is embedded over any implementation of the three. *)
Class Externals := {
  bytes_TrimSpace : string → string;
  stringifyProcInst : string → string → string;
  stringifyDirective : string → string }.

(** ** [domParserSettings] (dom.go, lines 34-45) *)

Record domParserSettings := { preserveWhitespace : bool }.

Definition NewDOMParser : domParserSettings := {| preserveWhitespace := false |}.

Definition PreserveWhitespace (s : domParserSettings) (f : bool) : domParserSettings :=
  {| preserveWhitespace := f |}.

(** ** The loop body of [Parse] *)

(** [fmt.Sprintf("%s:%s", a, b)] *)
Definition Sprintf_s_colon_s (a b : string) : string := a +:+ ":" +:+ b.

(** Lines 116-133: the name under which an attribute is stored. *)
Definition attribute_name (attr : xml.Attr) : string :=
  let Name := xml.AName attr in
  if decide (xml.Space Name ≠ "") then
    let ns := xml.Space Name in
    if decide (ns = xmlnsUrl) then Sprintf_s_colon_s xmlnsPrefix (xml.Local Name)
    else if decide (ns = xmlUrl) then Sprintf_s_colon_s xmlPrefix (xml.Local Name)
    else if decide (ns = xlinkUrl) then Sprintf_s_colon_s xlinkPrefix (xml.Local Name)
    else if decide (ns = xsiUrl) then Sprintf_s_colon_s xsiPrefix (xml.Local Name)
    else Sprintf_s_colon_s (xml.Space Name) (xml.Local Name)
  else xml.Local Name.

(** Lines 134-137: the [Attribute] appended for one raw attribute. *)
Definition make_Attribute (attr : xml.Attr) : Attribute :=
  {| Attribute_Name := attribute_name attr; Attribute_Value := xml.Value attr |}.

(** Lines 115-138: the [for ... range token.Attr] loop, appending to
    [el.Attributes], which starts out nil. *)
Definition collect_Attributes (attrs : list xml.Attr) : list Attribute :=
  foldl (λ acc attr, acc ++ [make_Attribute attr]) [] attrs.

(** Lines 111-138: the node a start-element token allocates.  [new(Node)]
    leaves [Text] empty and [Children] nil; the other fields are assigned,
    [Parent] from the cursor [e]. *)
Definition new_element (name : xml.Name) (attr : list xml.Attr) (e : option nat) : Node :=
  {| Node_Document := Some the_Document;
     Node_Parent := e;
     Node_Name := xml.Local name;
     Node_Attributes := collect_Attributes attr;
     Node_Text := "";
     Node_Children := [] |}.

(** The builder's variables: the arena of allocated nodes, [doc] and the
    cursor [e]. *)
Record builder := {
  st_heap : list Node;
  st_doc : Document;
  st_e : option nat }.

Definition initial : builder :=
  {| st_heap := []; st_doc := new_Document; st_e := None |}.

(** Reading and writing through a [*Node].  The address of a live node
    is always inside the arena; any other address is a fault, like nil. *)
Definition load (heap : list Node) (i : nat) : option Node := heap !! i.

Definition modify (f : Node → Node) (i : nat) (heap : list Node) : option (list Node) :=
  _ ← heap !! i; Some (alter f i heap).

(** What [Parse] returns: a [*Document] and an [error], or it panics.  A
    returned document comes with the arena its [Root] points into. *)
Inductive outcome :=
  | Return (doc : option (list Node * Document)) (err : option error)
  | Panic.

Section Parse.
Context `{Externals}.
Variable s : domParserSettings.

(** Lines 108-162: one iteration of the loop on token [t].  [None] is
    the run-time panic of a nil-pointer dereference.  A start-element
    token allocates the new node at the end of the arena, appends its
    address to the cursor's [Children], moves the cursor to it and makes
    it the root if there is none. *)
Definition step (t : xml.Token) (st : builder) : option builder :=
  match t with
  | xml.StartElement name attr =>
      let a := length (st_heap st) in
      let el := new_element name attr (st_e st) in
      heap' ← match st_e st with
              | Some i => modify (append_Child a) i (st_heap st ++ [el])
              | None => Some (st_heap st ++ [el])
              end;
      let doc' :=
        match Root (st_doc st) with
        | None => set_Root (Some a) (st_doc st)
        | Some _ => st_doc st
        end in
      Some {| st_heap := heap'; st_doc := doc'; st_e := Some a |}
  | xml.EndElement _ =>
      match st_e st with
      | None => None
      | Some i =>
          n ← load (st_heap st) i;
          Some {| st_heap := st_heap st; st_doc := st_doc st;
                  st_e := Node_Parent n |}
      end
  | xml.CharData token =>
      match st_e st with
      | Some i =>
          let v := if preserveWhitespace s then token else bytes_TrimSpace token in
          heap' ← modify (set_Text v) i (st_heap st);
          Some {| st_heap := heap'; st_doc := st_doc st; st_e := st_e st |}
      | None => Some st
      end
  | xml.ProcInst target inst =>
      Some {| st_heap := st_heap st;
              st_doc := set_ProcInst (stringifyProcInst target inst) (st_doc st);
              st_e := st_e st |}
  | xml.Directive d =>
      Some {| st_heap := st_heap st;
              st_doc := append_Directive (stringifyDirective d) (st_doc st);
              st_e := st_e st |}
  | xml.Comment _ => Some st
  end.

(** The loop body over a run of tokens. *)
Fixpoint run (ts : list xml.Token) (st : builder) : option builder :=
  match ts with
  | [] => Some st
  | t :: ts' => st' ← step t st; run ts' st'
  end.

(** Lines 168-174, after the loop. *)
Definition finish (err : option error) (st : builder) : outcome :=
  match err with
  | Some io_EOF => Return (Some (st_heap st, st_doc st)) None
  | _ => Return None err
  end.

(** Lines 107-166: [for t != nil { ...; t, err = p.Token() }], by
    recursion on the results the decoder still holds. *)
Fixpoint loop (t : option xml.Token) (err : option error) (p : xml.Decoder)
    (st : builder) : outcome :=
  match t with
  | None => finish err st
  | Some token =>
      match step token st with
      | None => Panic
      | Some st' =>
          match p with
          | [] => finish (Some io_EOF) st'
          | (t', err') :: p' => loop t' err' p' st'
          end
      end
  end.

(** Lines 98-175. *)
Definition Parse (r : xml.Decoder) : outcome :=
  let '((t, err), p) := xml.Decoder_Token r in
  match err with
  | Some _ => Return None err
  | None => loop t err p initial
  end.

End Parse.

(** ** Decoders that keep the contract of [Decoder.Token] *)

(** [Token] returns a token and a nil error, or a nil token and an error. *)
Definition ok (t : xml.Token) : xml.pull := (Some t, None).
Definition fail (e : error) : xml.pull := (None, Some e).

(** The decoder that delivers the tokens [ts] and then reports [e]. *)
Definition feed (ts : list xml.Token) (e : error) : xml.Decoder :=
  (ok <$> ts) ++ [fail e].

(** ** An implementation of the externals, for worked examples *)

(** The theorems hold for every implementation of [Externals].  The one
    below is used where an input is evaluated: white space is trimmed
    byte by byte, and the two stringify functions, which dom.go does not
    define, put the token's text back between its delimiters. *)

(** The six ASCII white-space bytes of Go's [asciiSpace] table. *)
Definition asciiSpace (c : Ascii.ascii) : bool :=
  bool_decide (Ascii.nat_of_ascii c ∈ [9; 10; 11; 12; 13; 32]).

Fixpoint TrimLeft (b : string) : string :=
  match b with
  | String c b' => if asciiSpace c then TrimLeft b' else b
  | EmptyString => EmptyString
  end.

(** On input whose bytes are all below 0x80 this is [bytes.TrimSpace]. *)
Definition ascii_TrimSpace (b : string) : string :=
  String.rev (TrimLeft (String.rev (TrimLeft b))).

Definition example_Externals : Externals :=
  {| bytes_TrimSpace := ascii_TrimSpace;
     stringifyProcInst target inst := "<?" +:+ target +:+ " " +:+ inst +:+ "?>";
     stringifyDirective d := "<!" +:+ d +:+ ">" |}.

(** * Vocabulary of the properties *)

(** The error of the first call of [Token]. *)
Definition first_err (r : xml.Decoder) : option error :=
  (xml.Decoder_Token r).1.2.

(** The tokens the loop processes: the results up to the first nil token. *)
Fixpoint tokens_of (r : xml.Decoder) : list xml.Token :=
  match r with
  | (Some t, _) :: r' => t :: tokens_of r'
  | _ => []
  end.

(** The error that comes with the first nil token. *)
Fixpoint stop_of (r : xml.Decoder) : option error :=
  match r with
  | [] => Some io_EOF
  | (Some _, _) :: r' => stop_of r'
  | (None, err) :: _ => err
  end.

(** Node [j] names node [i] as its parent. *)
Definition child_of (heap : list Node) (i j : nat) : Prop :=
  heap !! j ≫= Node_Parent = Some i.

Global Instance child_of_dec heap i j : Decision (child_of heap i j).
Proof. unfold child_of. apply _. Defined.

(** The fields of a node that are assigned when it is created. *)
Definition same_origin (n n' : Node) : Prop :=
  Node_Document n' = Node_Document n ∧ Node_Parent n' = Node_Parent n ∧
  Node_Name n' = Node_Name n ∧ Node_Attributes n' = Node_Attributes n.

(** [heap'] is a later arena than [heap]: every node is still there, with
    the fields it was created with. *)
Definition later_arena (heap heap' : list Node) : Prop :=
  ∀ j n, heap !! j = Some n → ∃ n', heap' !! j = Some n' ∧ same_origin n n'.

(** What holds of the builder's variables between two iterations. *)
Record wf (st : builder) : Prop := {
  wf_cursor : ∀ i, st_e st = Some i → i < length (st_heap st);
  wf_parent : ∀ j n i,
    st_heap st !! j = Some n → Node_Parent n = Some i → i < j;
  wf_children : ∀ i n,
    st_heap st !! i = Some n →
    Node_Children n = filter (child_of (st_heap st) i) (seq 0 (length (st_heap st)));
  wf_root : Root (st_doc st) = match st_heap st with [] => None | _ => Some 0 end }.

(** The number of elements open after the tokens [ts], starting with [d]
    open; [None] if an end-element token arrives while none is open. *)
Fixpoint open_depth (d : nat) (ts : list xml.Token) : option nat :=
  match ts with
  | [] => Some d
  | xml.StartElement _ _ :: ts' => open_depth (S d) ts'
  | xml.EndElement _ :: ts' =>
      match d with
      | 0 => None
      | S d' => open_depth d' ts'
      end
  | _ :: ts' => open_depth d ts'
  end.

(** The cursor [e] has exactly [d] nodes on its chain of parents. *)
Fixpoint open_chain (heap : list Node) (e : option nat) (d : nat) : Prop :=
  match d with
  | 0 => e = None
  | S d' => ∃ i n, e = Some i ∧ heap !! i = Some n ∧ open_chain heap (Node_Parent n) d'
  end.

(** The start tags of a token sequence, in order. *)
Definition start_elements (ts : list xml.Token) : list (xml.Name * list xml.Attr) :=
  omap (λ t, match t with xml.StartElement name attr => Some (name, attr) | _ => None end) ts.

(** The name and the attributes a node is created with, and the ones the
    loop body computes from a start tag. *)
Definition origin (n : Node) : string * list Attribute :=
  (Node_Name n, Node_Attributes n).

Definition origin_of_tag (tag : xml.Name * list xml.Attr) : string * list Attribute :=
  (xml.Local tag.1, make_Attribute <$> tag.2).

(** The arena a start-element token leaves behind, address by address. *)
Definition start_heap (heap : list Node) (e : option nat) (el : Node) : list Node :=
  match e with
  | Some i => alter (append_Child (length heap)) i (heap ++ [el])
  | None => heap ++ [el]
  end.

(** The strings of the processing instructions and of the directives
    of a token sequence, in order. *)
Definition proc_insts `{Externals} (ts : list xml.Token) : list string :=
  omap (λ t, match t with
             | xml.ProcInst target inst => Some (stringifyProcInst target inst)
             | _ => None
             end) ts.

Definition directives `{Externals} (ts : list xml.Token) : list string :=
  omap (λ t, match t with
             | xml.Directive d => Some (stringifyDirective d)
             | _ => None
             end) ts.

(** The four namespace URIs that lines 120-127 map to a fixed prefix. *)
Definition reserved_urls : list string := [xmlnsUrl; xmlUrl; xlinkUrl; xsiUrl].

(** The prefix a tag declares for [uri].  The decoder hands a namespace
    declaration (an attribute written xmlns:p with the URI as its value)
    over with [Space] xmlns, [Local] p and the URI as [Value]; this is the
    only place where a token carries a declared prefix. *)
Definition declared_prefix (attrs : list xml.Attr) (uri : string) : option string :=
  (λ a, xml.Local (xml.AName a)) <$>
    head (filter (λ a, xml.Space (xml.AName a) = "xmlns" ∧ xml.Value a = uri) attrs).

(** The nodes of the document's tree: the root and, with a node, the
    nodes of its [Children]. *)
Inductive in_tree (heap : list Node) (d : Document) : nat → Prop :=
  | in_tree_root r : Root d = Some r → in_tree heap d r
  | in_tree_child i n j :
      in_tree heap d i → heap !! i = Some n → j ∈ Node_Children n → in_tree heap d j.

(** The first start tag of a token sequence: the outermost tag of a
    document with a single root element. *)
Definition outermost (ts : list xml.Token) : option (xml.Name * list xml.Attr) :=
  head (start_elements ts).

(** The token kinds that have a case in the type switch of lines 108-162. *)
Definition handled (t : xml.Token) : bool :=
  match t with
  | xml.StartElement _ _ | xml.EndElement _ | xml.CharData _
  | xml.ProcInst _ _ | xml.Directive _ => true
  | xml.Comment _ => false
  end.

(** ** Worked inputs *)

(** The tokens the decoder delivers for the inputs below follow
    encoding/xml: an attribute written with a declared prefix arrives
    with the namespace URI in [Space], the prefix xml arrives as the XML
    namespace URI, and a namespace declaration keeps xmlns in [Space]. *)

Definition plain (l : string) : xml.Name := {| xml.Space := ""; xml.Local := l |}.

(** The attributes of a tag with xml:lang, xsi:type and the declaration
    of xsi for http://www.w3.org/2001/XMLSchema-instance (as in
    dom_test.go, line 22). *)
Definition xsi_declared : list xml.Attr :=
  [ {| xml.AName := {| xml.Space := xmlUrl; xml.Local := "lang" |};
       xml.Value := "en" |};
    {| xml.AName := {| xml.Space := xsiUrl; xml.Local := "type" |};
       xml.Value := "string" |};
    {| xml.AName := {| xml.Space := "xmlns"; xml.Local := "xsi" |};
       xml.Value := "http://www.w3.org/2001/XMLSchema-instance" |} ].

(** A document with two processing instructions, a directive before the
    root element, a comment and a directive inside it. *)
Definition prolog_twice : list xml.Token :=
  [ xml.ProcInst "xml" "version='1.0'";
    xml.Directive "DOCTYPE a";
    xml.ProcInst "style" "href='a.css'";
    xml.StartElement (plain "a") [];
    xml.Comment " note ";
    xml.Directive "ignored";
    xml.EndElement (plain "a") ].

(** [<a><b></b><c></c></a>] as the decoder delivers it. *)
Definition a_b_c : list xml.Token :=
  [ xml.StartElement (plain "a") [];
    xml.StartElement (plain "b") []; xml.EndElement (plain "b");
    xml.StartElement (plain "c") []; xml.EndElement (plain "c");
    xml.EndElement (plain "a") ].

(** The XML declaration, a line break and [<foo> bar </foo>], as the
    decoder delivers them (the input of dom_test.go, lines 90-91 and
    102-103, with the declaration's values in single quotes). *)
Definition foo_bar : list xml.Token :=
  [ xml.ProcInst "xml" "version='1.0' encoding='UTF-8'";
    xml.CharData (String (Ascii.ascii_of_nat 10) "");
    xml.StartElement (plain "foo") [];
    xml.CharData " bar ";
    xml.EndElement (plain "foo") ].

(** The attributes of a tag that declares the prefix foo for
    http://example.com/foo and has an attribute foo:bar with value v, as
    the decoder delivers them. *)
Definition foo_declared : list xml.Attr :=
  [ {| xml.AName := {| xml.Space := "xmlns"; xml.Local := "foo" |};
       xml.Value := "http://example.com/foo" |};
    {| xml.AName := {| xml.Space := "http://example.com/foo"; xml.Local := "bar" |};
       xml.Value := "v" |} ].

(** The attributes of a tag that declares the prefix xlink for
    http://www.w3.org/1999/xlink and has an attribute xlink:href with
    value X, as the decoder delivers them (as in dom_test.go, line 15). *)
Definition xlink_declared : list xml.Attr :=
  [ {| xml.AName := {| xml.Space := "xmlns"; xml.Local := "xlink" |};
       xml.Value := "http://www.w3.org/1999/xlink" |};
    {| xml.AName := {| xml.Space := xlinkUrl; xml.Local := "href" |};
       xml.Value := "X" |} ].

(** ** Vocabulary of the further properties *)

(** The cursor [e] is [d] parent steps above [base], and the nodes on the
    way were allocated at address [n0] or later. *)
Fixpoint chain_to (heap : list Node) (n0 : nat) (base e : option nat) (d : nat) : Prop :=
  match d with
  | 0 => e = base
  | S d' => ∃ i n, e = Some i ∧ n0 ≤ i ∧ heap !! i = Some n ∧
                   chain_to heap n0 base (Node_Parent n) d'
  end.

(** The nodes below address [n0], other than the one [base] points to,
    are the same in [heap'] as in [heap]. *)
Definition frame (n0 : nat) (base : option nat) (heap heap' : list Node) : Prop :=
  ∀ j, j < n0 → base ≠ Some j → heap' !! j = heap !! j.

(** Node [k] is reached from node [j] by following [Parent]. *)
Inductive ancestor (heap : list Node) : nat → nat → Prop :=
  | ancestor_here j : is_Some (heap !! j) → ancestor heap j j
  | ancestor_up j n i k :
      heap !! j = Some n → Node_Parent n = Some i → ancestor heap i k →
      ancestor heap j k.

(** Only the node at address 0 has no parent. *)
Definition rooted (heap : list Node) : Prop :=
  ∀ j n, heap !! j = Some n → Node_Parent n = None → j = 0.

(** No start tag arrives at depth 0 after another start tag: the tokens
    have at most one top-level element.  [seen] says that a start tag has
    arrived, [d] is the number of open elements. *)
Fixpoint one_root (seen : bool) (d : nat) (ts : list xml.Token) : bool :=
  match ts with
  | [] => true
  | xml.StartElement _ _ :: ts' =>
      match d with
      | 0 => negb seen && one_root true 1 ts'
      | S _ => one_root true (S d) ts'
      end
  | xml.EndElement _ :: ts' => one_root seen (pred d) ts'
  | _ :: ts' => one_root seen d ts'
  end.

(** A node with its text trimmed, and a result with every text trimmed. *)
Definition trim_Text `{Externals} (n : Node) : Node :=
  set_Text (bytes_TrimSpace (Node_Text n)) n.

Definition trim_builder `{Externals} (st : builder) : builder :=
  {| st_heap := trim_Text <$> st_heap st; st_doc := st_doc st; st_e := st_e st |}.

Definition trim_outcome `{Externals} (o : outcome) : outcome :=
  match o with
  | Return (Some (heap, d)) err => Return (Some (trim_Text <$> heap, d)) err
  | _ => o
  end.

(** A decoder with the errors dropped that come together with a token
    on a pull after the first. *)
Definition drop_errors_with_token (r : xml.Decoder) : xml.Decoder :=
  match r with
  | [] => []
  | first :: r' =>
      first :: ((λ p : xml.pull, match p.1 with Some t => (Some t, None) | None => p end) <$> r')
  end.

(** ** [Must] (dom.go, lines 47-54) *)

(** What a panic carries: the run-time error of a nil dereference, or
    the error value passed to [panic]. *)
Inductive panic_value :=
  | nil_dereference
  | error_value (e : error).

Inductive must_outcome :=
  | Must_returns (doc : option (list Node * Document))
  | Must_panics (v : panic_value).

Definition Must (doc : option (list Node * Document)) (err : option error) : must_outcome :=
  match err with
  | Some e => Must_panics (error_value e)
  | None => Must_returns doc
  end.

(** The call [Must(p.Parse(r))]: a panic inside [Parse] leaves before
    [Must] is entered. *)
Definition Must_Parse `{Externals} (s : domParserSettings) (r : xml.Decoder) : must_outcome :=
  match Parse s r with
  | Return doc err => Must doc err
  | Panic => Must_panics nil_dereference
  end.

(** * Properties *)

(** ** The attribute loop *)

Lemma collect_Attributes_from (acc : list Attribute) (attrs : list xml.Attr) :
  foldl (λ acc attr, acc ++ [make_Attribute attr]) acc attrs
  = acc ++ (make_Attribute <$> attrs).
Proof.
  revert acc. induction attrs as [|a attrs IH]; intros acc; simpl.
  - by rewrite app_nil_r.
  - rewrite IH. by rewrite <- app_assoc.
Qed.

Lemma collect_Attributes_fmap (attrs : list xml.Attr) :
  collect_Attributes attrs = make_Attribute <$> attrs.
Proof. unfold collect_Attributes. by rewrite collect_Attributes_from. Qed.

(** ** What the loop consumes from a decoder *)

Section Loop.
Context `{Externals}.
Variable s : domParserSettings.

(** The recursion of [loop] is the source's loop: run the body, then
    pull the next token. *)
Lemma loop_unfold token err p st :
  loop s (Some token) err p st =
    match step s token st with
    | None => Panic
    | Some st' =>
        let '((t', err'), p') := xml.Decoder_Token p in loop s t' err' p' st'
    end.
Proof.
  destruct p as [|[t' err'] p']; cbn [loop xml.Decoder_Token];
    by destruct (step s token st).
Qed.

Lemma loop_spec p t err st :
  loop s t err p st =
    match run s (tokens_of ((t, err) :: p)) st with
    | None => Panic
    | Some st' => finish (stop_of ((t, err) :: p)) st'
    end.
Proof.
  revert t err st. induction p as [|[t' err'] p IH]; intros t err st.
  - destruct t as [token|]; [|done].
    cbn [loop tokens_of stop_of run]. by destruct (step s token st).
  - destruct t as [token|]; [|done].
    cbn [loop tokens_of stop_of run]. destruct (step s token st) as [st'|]; [|done].
    simpl. apply IH.
Qed.

(** [Parse] in one equation: the first pull decides whether the loop
    is entered at all. *)
Lemma Parse_spec r :
  Parse s r =
    match first_err r with
    | Some e => Return None (Some e)
    | None =>
        match run s (tokens_of r) initial with
        | None => Panic
        | Some st => finish (stop_of r) st
        end
    end.
Proof.
  unfold Parse, first_err. destruct r as [|[t err] p]; [done|].
  cbn [xml.Decoder_Token fst snd]. destruct err as [e|]; [done|].
  apply loop_spec.
Qed.

Lemma first_err_tokens ts e rest :
  first_err ((ok <$> ts) ++ fail e :: rest) = match ts with [] => Some e | _ => None end.
Proof. by destruct ts. Qed.

Lemma tokens_of_tokens ts e rest : tokens_of ((ok <$> ts) ++ fail e :: rest) = ts.
Proof. induction ts as [|t ts IH]; [done|]. csimpl. by rewrite IH. Qed.

Lemma stop_of_tokens ts e rest : stop_of ((ok <$> ts) ++ fail e :: rest) = Some e.
Proof. induction ts as [|t ts IH]; [done|]. csimpl. by rewrite IH. Qed.

(** A decoder that delivers [t :: ts] and then reports [e]. *)
Lemma Parse_tokens t ts e rest :
  Parse s ((ok <$> t :: ts) ++ fail e :: rest) =
    match run s (t :: ts) initial with
    | None => Panic
    | Some st => finish (Some e) st
    end.
Proof.
  by rewrite Parse_spec, first_err_tokens, tokens_of_tokens, stop_of_tokens.
Qed.

Lemma run_app ts1 ts2 st :
  run s (ts1 ++ ts2) st = run s ts1 st ≫= run s ts2.
Proof.
  revert st. induction ts1 as [|t ts1 IH]; intros st; simpl; [done|].
  destruct (step s t st) as [st'|]; simpl; [apply IH|done].
Qed.

End Loop.

(** ** The shape of the arena *)

Lemma filter_ext_elem {A} (P Q : A → Prop) `{∀ x, Decision (P x)} `{∀ x, Decision (Q x)}
    (l : list A) :
  (∀ x, x ∈ l → P x ↔ Q x) → filter P l = filter Q l.
Proof.
  induction l as [|x l IH]; intros HPQ; [done|].
  rewrite !filter_cons.
  rewrite IH by (intros y Hy; apply HPQ; by right).
  destruct (decide (P x)) as [HP|HP], (decide (Q x)) as [HQ|HQ]; try done.
  - destruct HQ. apply HPQ; [by left|done].
  - destruct HP. apply HPQ; [by left|done].
Qed.

Lemma same_origin_refl n : same_origin n n.
Proof. by repeat split. Qed.

Lemma same_origin_trans n1 n2 n3 :
  same_origin n1 n2 → same_origin n2 n3 → same_origin n1 n3.
Proof. unfold same_origin. intros (?&?&?&?) (?&?&?&?). repeat split; congruence. Qed.

Lemma later_arena_refl heap : later_arena heap heap.
Proof. intros j n Hj. exists n. split; [done|apply same_origin_refl]. Qed.

Lemma later_arena_trans h1 h2 h3 :
  later_arena h1 h2 → later_arena h2 h3 → later_arena h1 h3.
Proof.
  intros H12 H23 j n Hj.
  destruct (H12 j n Hj) as (n2 & Hj2 & Ho2).
  destruct (H23 j n2 Hj2) as (n3 & Hj3 & Ho3).
  exists n3. split; [done|]. by eapply same_origin_trans.
Qed.

(** An assignment to [Text] or [Children] through a pointer. *)
Lemma later_arena_alter f i heap :
  (∀ n, same_origin n (f n)) → later_arena heap (alter f i heap).
Proof.
  intros Hf j n Hj. rewrite list_lookup_alter. case_decide as Hij.
  - subst j. rewrite Hj. exists (f n). by split.
  - exists n. split; [done|apply same_origin_refl].
Qed.

Lemma later_arena_app heap new : later_arena heap (heap ++ new).
Proof.
  intros j n Hj. exists n. split; [|apply same_origin_refl].
  by apply lookup_app_l_Some.
Qed.

Lemma modify_Some f i heap n :
  heap !! i = Some n → modify f i heap = Some (alter f i heap).
Proof. unfold modify. by intros ->. Qed.

Lemma modify_inv f i heap heap' :
  modify f i heap = Some heap' → is_Some (heap !! i) ∧ heap' = alter f i heap.
Proof.
  unfold modify. destruct (heap !! i) as [n|] eqn:Hi; simpl; [|done].
  intros [= <-]. eauto.
Qed.

Lemma child_of_alter f i heap k j :
  (∀ n, Node_Parent (f n) = Node_Parent n) →
  child_of (alter f i heap) k j ↔ child_of heap k j.
Proof.
  intros Hf. unfold child_of. rewrite list_lookup_alter.
  case_decide; [subst j|done]. destruct (heap !! i); simpl; [|done].
  by rewrite Hf.
Qed.

Section Invariant.
Context `{Externals}.
Variable s : domParserSettings.

(** The arena after a start-element token, when the cursor is live. *)
Lemma step_StartElement name attr st :
  wf st →
  step s (xml.StartElement name attr) st =
    Some {| st_heap :=
              match st_e st with
              | Some i => alter (append_Child (length (st_heap st))) i
                            (st_heap st ++ [new_element name attr (st_e st)])
              | None => st_heap st ++ [new_element name attr (st_e st)]
              end;
            st_doc :=
              match Root (st_doc st) with
              | None => set_Root (Some (length (st_heap st))) (st_doc st)
              | Some _ => st_doc st
              end;
            st_e := Some (length (st_heap st)) |}.
Proof.
  intros Hwf. unfold step, new_element.
  destruct (st_e st) as [i|] eqn:He; [|done].
  apply (wf_cursor _ Hwf) in He.
  destruct (lookup_lt_is_Some_2 (st_heap st) i He) as [n Hn].
  erewrite modify_Some; [done|]. by apply lookup_app_l_Some.
Qed.

Lemma step_later_arena t st st' :
  step s t st = Some st' → later_arena (st_heap st) (st_heap st').
Proof.
  destruct t as [name attr|name|data|data|target inst|data]; simpl.
  - destruct (st_e st) as [i|]; simpl.
    + destruct (modify _ _ _) as [heap'|] eqn:Hm; simpl; [|done].
      intros [= <-]. simpl. apply modify_inv in Hm as [_ ->].
      eapply later_arena_trans; [apply later_arena_app|].
      apply later_arena_alter. intros n. by repeat split.
    + intros [= <-]. apply later_arena_app.
  - destruct (st_e st) as [i|]; [|done].
    destruct (load _ _); simpl; [|done]. intros [= <-]. apply later_arena_refl.
  - destruct (st_e st) as [i|].
    + destruct (modify _ _ _) as [heap'|] eqn:Hm; simpl; [|done].
      intros [= <-]. simpl. apply modify_inv in Hm as [_ ->].
      apply later_arena_alter. intros n. by repeat split.
    + intros [= <-]. apply later_arena_refl.
  - intros [= <-]. apply later_arena_refl.
  - intros [= <-]. apply later_arena_refl.
  - intros [= <-]. apply later_arena_refl.
Qed.


Lemma start_heap_length heap e el : length (start_heap heap e el) = S (length heap).
Proof.
  unfold start_heap. destruct e; rewrite ?length_alter, length_app; simpl; lia.
Qed.

Lemma start_heap_lookup heap e el j :
  (∀ i, e = Some i → i < length heap) →
  start_heap heap e el !! j =
    if decide (j = length heap) then Some el
    else if decide (e = Some j) then append_Child (length heap) <$> heap !! j
    else heap !! j.
Proof.
  intros He. unfold start_heap.
  assert (∀ k, k ≠ length heap → (heap ++ [el]) !! k = heap !! k) as Hold.
  { intros k Hk. destruct (decide (k < length heap)) as [Hlt|Hge].
    - by apply lookup_app_l.
    - rewrite !lookup_ge_None_2; [done|lia|rewrite length_app; simpl; lia]. }
  assert ((heap ++ [el]) !! length heap = Some el) as Hnew.
  { by rewrite list_lookup_middle. }
  destruct e as [i|].
  - specialize (He i eq_refl). rewrite list_lookup_alter.
    destruct (decide (i = j)) as [->|Hij].
    + rewrite decide_False by lia. rewrite decide_True by done.
      rewrite Hold by lia. done.
    + destruct (decide (j = length heap)) as [->|Hj]; [done|].
      rewrite decide_False by congruence. by apply Hold.
  - destruct (decide (j = length heap)) as [->|Hj]; [done|].
    rewrite decide_False by done. by apply Hold.
Qed.

Lemma start_heap_parent heap e el j :
  (∀ i, e = Some i → i < length heap) →
  start_heap heap e el !! j ≫= Node_Parent =
    if decide (j = length heap) then Node_Parent el else heap !! j ≫= Node_Parent.
Proof.
  intros He. rewrite start_heap_lookup by done.
  repeat case_decide; try done. by destruct (heap !! j).
Qed.

Lemma filter_child_of_none heap k l :
  (∀ j, j ∈ l → ¬ child_of heap k j) → filter (child_of heap k) l = [].
Proof.
  intros Hno. destruct (filter (child_of heap k) l) as [|x l'] eqn:Hf; [done|].
  assert (x ∈ filter (child_of heap k) l) as Hx by (rewrite Hf; by left).
  apply list_elem_of_filter in Hx as [Hx1 Hx2]. by destruct (Hno x).
Qed.

Lemma wf_initial : wf initial.
Proof. split; simpl; try done. Qed.

Lemma step_wf t st st' : wf st → step s t st = Some st' → wf st'.
Proof.
  intros Hwf. destruct t as [name attr|name|data|data|target inst|data].
  - (* start-element *)
    rewrite step_StartElement by done. intros [= <-].
    pose proof (wf_cursor _ Hwf) as Hcur.
    set (el := new_element name attr (st_e st)).
    fold (start_heap (st_heap st) (st_e st) el).
    split; simpl.
    + intros i [= <-]. rewrite start_heap_length. lia.
    + intros j n i Hj Hp. rewrite start_heap_lookup in Hj by done.
      destruct (decide (j = length (st_heap st))) as [->|Hne].
      * injection Hj as <-. simpl in Hp. by apply Hcur.
      * assert (∃ n0, st_heap st !! j = Some n0 ∧ Node_Parent n0 = Node_Parent n)
          as (n0 & Hn0 & Hpar).
        { case_decide; [|by eexists].
          destruct (st_heap st !! j) as [n0|]; simplify_eq/=. by eexists. }
        eapply (wf_parent _ Hwf); [done|congruence].
    + intros k n Hk. rewrite start_heap_length, seq_S, filter_app. simpl.
      rewrite (filter_ext_elem _ (child_of (st_heap st) k)); last first.
      { intros j Hj. apply elem_of_seq in Hj. unfold child_of.
        rewrite start_heap_parent by done. rewrite decide_False by lia. done. }
      rewrite filter_singleton; [|exact []].
      rewrite start_heap_lookup in Hk by done.
      destruct (decide (k = length (st_heap st))) as [->|Hne].
      * injection Hk as <-. simpl.
        rewrite filter_child_of_none; last first.
        { intros j Hj Hc. apply elem_of_seq in Hj. unfold child_of in Hc.
          destruct (st_heap st !! j) as [n0|] eqn:Hn0; simpl in Hc; [|done].
          pose proof (wf_parent _ Hwf _ _ _ Hn0 Hc). lia. }
        rewrite decide_False; [done|].
        unfold child_of. rewrite start_heap_parent by done.
        rewrite decide_True by done. simpl. intros He. apply Hcur in He. lia.
      * assert (child_of (start_heap (st_heap st) (st_e st) el) k (length (st_heap st))
                ↔ st_e st = Some k) as Hnew.
        { unfold child_of. rewrite start_heap_parent by done.
          by rewrite decide_True. }
        destruct (decide (st_e st = Some k)) as [He|He].
        -- destruct (st_heap st !! k) as [n0|] eqn:Hn0; simplify_eq/=.
           rewrite decide_True by by apply Hnew.
           f_equal. by apply (wf_children _ Hwf).
        -- rewrite decide_False by by rewrite Hnew.
           rewrite app_nil_r. by apply (wf_children _ Hwf).
    + pose proof (start_heap_length (st_heap st) (st_e st) el) as Hlen.
      destruct (start_heap _ _ _); [done|].
      pose proof (wf_root _ Hwf) as Hroot.
      destruct (st_heap st); by rewrite Hroot.
  - (* end-element *)
    simpl. destruct (st_e st) as [i|] eqn:He; [|done].
    unfold load. destruct (st_heap st !! i) as [n|] eqn:Hn; simpl; [|done].
    intros [= <-]. split; simpl; try apply Hwf.
    intros p Hp. pose proof (wf_parent _ Hwf _ _ _ Hn Hp).
    apply lookup_lt_Some in Hn. lia.
  - (* character data *)
    simpl. destruct (st_e st) as [i|] eqn:He; [|by intros [= <-]].
    destruct (modify _ _ _) as [heap'|] eqn:Hm; simpl; [|done].
    apply modify_inv in Hm as [_ ->]. intros [= <-].
    set (f := set_Text _).
    assert (∀ k j, child_of (alter f i (st_heap st)) k j ↔ child_of (st_heap st) k j)
      as Hchild by (intros; by apply child_of_alter).
    split; simpl.
    + intros k Hk. rewrite length_alter. apply (wf_cursor _ Hwf). congruence.
    + intros j n k Hj Hp. rewrite list_lookup_alter in Hj.
      case_decide; [subst j|by eapply (wf_parent _ Hwf)].
      destruct (st_heap st !! i) as [n0|] eqn:Hn0; simplify_eq/=.
      by eapply (wf_parent _ Hwf).
    + intros k n Hk. rewrite length_alter.
      rewrite (list_filter_iff _ (child_of (st_heap st) k)) by apply Hchild.
      rewrite list_lookup_alter in Hk.
      case_decide; [subst k|by apply (wf_children _ Hwf)].
      destruct (st_heap st !! i) as [n0|] eqn:Hn0; simplify_eq/=.
      by apply (wf_children _ Hwf).
    + rewrite (wf_root _ Hwf). by destruct (st_heap st), i.
  - by intros [= <-].
  - intros [= <-]. split; simpl; apply Hwf.
  - intros [= <-]. split; simpl; apply Hwf.
Qed.

Lemma run_wf ts st st' : wf st → run s ts st = Some st' → wf st'.
Proof.
  revert st. induction ts as [|t ts IH]; intros st Hwf; simpl.
  - by intros [= <-].
  - destruct (step s t st) as [st1|] eqn:Hstep; simpl; [|done].
    apply IH. by eapply step_wf.
Qed.

(** Open elements: the cursor and its chain of parents. *)
Lemma open_chain_later heap heap' e d :
  later_arena heap heap' → open_chain heap e d → open_chain heap' e d.
Proof.
  intros Hlater. revert e. induction d as [|d IH]; intros e; simpl; [done|].
  intros (i & n & -> & Hn & Hc).
  destruct (Hlater i n Hn) as (n' & Hn' & _ & Hp & _).
  exists i, n'. repeat split; [done|]. rewrite Hp. by apply IH.
Qed.

Lemma open_chain_nil heap e d : open_chain heap e d → e = None ↔ d = 0.
Proof.
  destruct d; simpl; [done|]. intros (i & n & -> & _). split; [done|lia].
Qed.

(** The loop body panics exactly when an end-element token arrives
    while no element is open. *)
Lemma run_open_depth ts st d :
  wf st → open_chain (st_heap st) (st_e st) d →
  match open_depth d ts with
  | Some d' => ∃ st', run s ts st = Some st' ∧ wf st' ∧
                      open_chain (st_heap st') (st_e st') d'
  | None => run s ts st = None
  end.
Proof.
  revert st d. induction ts as [|t ts IH]; intros st d Hwf Hc.
  { simpl. by exists st. }
  assert (∀ st1 d1, step s t st = Some st1 →
            open_chain (st_heap st1) (st_e st1) d1 →
            open_depth d (t :: ts) = open_depth d1 ts →
            match open_depth d (t :: ts) with
            | Some d' => ∃ st', run s (t :: ts) st = Some st' ∧ wf st' ∧
                                open_chain (st_heap st') (st_e st') d'
            | None => run s (t :: ts) st = None
            end) as Hnext.
  { intros st1 d1 Hstep Hc1 ->. cbn [run]. rewrite Hstep. simpl.
    apply IH; [by eapply step_wf|done]. }
  destruct t as [name attr|name|data|data|target inst|data].
  - pose proof (step_StartElement name attr st Hwf) as Hstep.
    eapply (Hnext _ (S d)); [exact Hstep| |done].
    simpl. fold (start_heap (st_heap st) (st_e st) (new_element name attr (st_e st))).
    eexists _, _. split; [done|].
    split.
    + rewrite start_heap_lookup by apply Hwf. by rewrite decide_True.
    + simpl. eapply open_chain_later; [|done].
      intros j n Hj. specialize (step_later_arena _ _ _ Hstep j n Hj). done.
  - destruct d as [|d]; simpl in Hc.
    + simpl. by rewrite Hc.
    + destruct Hc as (i & n & He & Hn & Hc).
      eapply (Hnext {| st_heap := st_heap st; st_doc := st_doc st;
                       st_e := Node_Parent n |} d); [|exact Hc|done].
      simpl. rewrite He. unfold load. by rewrite Hn.
  - destruct (st_e st) as [i|] eqn:He.
    + destruct (lookup_lt_is_Some_2 (st_heap st) i) as [n Hn]; [by apply Hwf|].
      assert (step s (xml.CharData data) st = Some
                {| st_heap := alter (set_Text (if preserveWhitespace s then data
                                               else bytes_TrimSpace data)) i (st_heap st);
                   st_doc := st_doc st; st_e := st_e st |}) as Hstep.
      { simpl. rewrite He. by erewrite modify_Some. }
      eapply (Hnext _ d); [exact Hstep| |done].
      simpl. rewrite He. eapply open_chain_later; [|done].
      apply later_arena_alter. intros ?. by repeat split.
    + eapply (Hnext st d); [by simpl; rewrite He| by rewrite He |done].
  - by eapply (Hnext st d).
  - by eapply (Hnext _ d).
  - by eapply (Hnext _ d).
Qed.

Lemma start_elements_cons t ts :
  start_elements (t :: ts) = start_elements [t] ++ start_elements ts.
Proof. apply (omap_app _ [t] ts). Qed.

Lemma directives_cons t ts : directives (t :: ts) = directives [t] ++ directives ts.
Proof. apply (omap_app _ [t] ts). Qed.

Lemma proc_insts_cons t ts : proc_insts (t :: ts) = proc_insts [t] ++ proc_insts ts.
Proof. apply (omap_app _ [t] ts). Qed.

Lemma origin_alter f i (heap : list Node) :
  (∀ n, same_origin n (f n)) → origin <$> alter f i heap = origin <$> heap.
Proof.
  intros Hf. apply list_eq. intros j.
  rewrite !list_lookup_fmap, list_lookup_alter.
  case_decide; [subst j|done]. destruct (heap !! i) as [n|]; [|done]. simpl.
  destruct (Hf n) as (_ & _ & Hn & Ha). unfold origin. by rewrite Hn, Ha.
Qed.

(** One node per start tag, allocated in the order of the tags and
    keeping its name and attributes. *)
Lemma step_origin t st st' :
  step s t st = Some st' →
  origin <$> st_heap st' = (origin <$> st_heap st) ++ (origin_of_tag <$> start_elements [t]).
Proof.
  destruct t as [name attr|name|data|data|target inst|data]; simpl.
  - assert (origin <$> st_heap st ++ [new_element name attr (st_e st)]
            = (origin <$> st_heap st) ++ [origin_of_tag (name, attr)]) as Happ.
    { rewrite fmap_app. simpl. unfold origin, origin_of_tag. simpl.
      by rewrite collect_Attributes_fmap. }
    destruct (st_e st) as [i|]; simpl.
    + destruct (modify _ _ _) as [heap'|] eqn:Hm; simpl; [|done].
      intros [= <-]. simpl. apply modify_inv in Hm as [_ ->].
      rewrite origin_alter by (intros ?; by repeat split). apply Happ.
    + intros [= <-]. apply Happ.
  - destruct (st_e st) as [i|]; [|done].
    destruct (load _ _); simpl; [|done]. intros [= <-]. by rewrite app_nil_r.
  - destruct (st_e st) as [i|].
    + destruct (modify _ _ _) as [heap'|] eqn:Hm; simpl; [|done].
      intros [= <-]. simpl. apply modify_inv in Hm as [_ ->].
      rewrite origin_alter by (intros ?; by repeat split). by rewrite app_nil_r.
    + intros [= <-]. by rewrite app_nil_r.
  - intros [= <-]. by rewrite app_nil_r.
  - intros [= <-]. by rewrite app_nil_r.
  - intros [= <-]. by rewrite app_nil_r.
Qed.

Lemma run_origin ts st st' :
  run s ts st = Some st' →
  origin <$> st_heap st' = (origin <$> st_heap st) ++ (origin_of_tag <$> start_elements ts).
Proof.
  revert st. induction ts as [|t ts IH]; intros st; simpl.
  - intros [= <-]. by rewrite app_nil_r.
  - destruct (step s t st) as [st1|] eqn:Hstep; simpl; [|done].
    intros Hrun. rewrite (IH _ Hrun), (step_origin _ _ _ Hstep).
    by rewrite <- app_assoc, <- fmap_app, <- start_elements_cons.
Qed.

(** The document's strings after one iteration and after many. *)
Lemma step_Directives t st st' :
  step s t st = Some st' →
  Directives (st_doc st') = Directives (st_doc st) ++ directives [t].
Proof.
  destruct t as [name attr|name|data|data|target inst|data]; simpl.
  - destruct (st_e st) as [i|]; simpl.
    + destruct (modify _ _ _); simpl; [|done]. intros [= <-]. simpl.
      rewrite app_nil_r. by destruct (Root (st_doc st)).
    + intros [= <-]. simpl. rewrite app_nil_r. by destruct (Root (st_doc st)).
  - destruct (st_e st) as [i|]; [|done].
    destruct (load _ _); simpl; [|done]. intros [= <-]. by rewrite app_nil_r.
  - destruct (st_e st) as [i|].
    + destruct (modify _ _ _); simpl; [|done]. intros [= <-]. by rewrite app_nil_r.
    + intros [= <-]. by rewrite app_nil_r.
  - intros [= <-]. by rewrite app_nil_r.
  - intros [= <-]. by rewrite app_nil_r.
  - by intros [= <-].
Qed.

Lemma step_ProcInst t st st' :
  step s t st = Some st' →
  ProcInst (st_doc st') = default (ProcInst (st_doc st)) (last (proc_insts [t])).
Proof.
  destruct t as [name attr|name|data|data|target inst|data]; simpl.
  - destruct (st_e st) as [i|]; simpl.
    + destruct (modify _ _ _); simpl; [|done]. intros [= <-]. simpl.
      by destruct (Root (st_doc st)).
    + intros [= <-]. simpl. by destruct (Root (st_doc st)).
  - destruct (st_e st) as [i|]; [|done].
    destruct (load _ _); simpl; [|done]. by intros [= <-].
  - destruct (st_e st) as [i|].
    + destruct (modify _ _ _); simpl; [|done]. by intros [= <-].
    + by intros [= <-].
  - by intros [= <-].
  - by intros [= <-].
  - by intros [= <-].
Qed.

Lemma run_Directives ts st st' :
  run s ts st = Some st' →
  Directives (st_doc st') = Directives (st_doc st) ++ directives ts.
Proof.
  revert st. induction ts as [|t ts IH]; intros st; simpl.
  - intros [= <-]. by rewrite app_nil_r.
  - destruct (step s t st) as [st1|] eqn:Hstep; simpl; [|done].
    intros Hrun. rewrite (IH _ Hrun), (step_Directives _ _ _ Hstep).
    by rewrite <- app_assoc, <- directives_cons.
Qed.

Lemma run_ProcInst ts st st' :
  run s ts st = Some st' →
  ProcInst (st_doc st') = default (ProcInst (st_doc st)) (last (proc_insts ts)).
Proof.
  revert st. induction ts as [|t ts IH]; intros st; cbn [run].
  - by intros [= <-].
  - destruct (step s t st) as [st1|] eqn:Hstep; [|done].
    intros Hrun. rewrite (IH _ Hrun), (step_ProcInst _ _ _ Hstep).
    rewrite (proc_insts_cons t ts), last_app. by destruct (last (proc_insts ts)).
Qed.

(** A successful return, taken apart. *)
Lemma Parse_success r heap d err :
  Parse s r = Return (Some (heap, d)) err →
  first_err r = None ∧ stop_of r = Some io_EOF ∧ err = None ∧
  ∃ st, run s (tokens_of r) initial = Some st ∧ wf st ∧
        heap = st_heap st ∧ d = st_doc st.
Proof.
  rewrite Parse_spec. destruct (first_err r) as [e|]; [done|].
  destruct (run s (tokens_of r) initial) as [st|] eqn:Hrun; [|done].
  unfold finish. destruct (stop_of r) as [[|msg]|]; try done.
  intros [= <- <- <-]. split_and!; try done. exists st. split_and!; try done.
  eapply run_wf; [apply wf_initial|done].
Qed.

End Invariant.

(** ** Further facts about single iterations *)

Section Claims.
Context `{Externals}.
Variable s : domParserSettings.

(** The node a start-element token allocates is at the end of the arena,
    with the cursor as parent and every attribute converted in order. *)
Lemma step_StartElement_stored name attrs st st' :
  step s (xml.StartElement name attrs) st = Some st' →
  ∃ el, st_heap st' !! length (st_heap st) = Some el ∧
        Node_Parent el = st_e st ∧ Node_Name el = xml.Local name ∧
        Node_Attributes el = make_Attribute <$> attrs.
Proof.
  simpl. set (el := new_element _ _ _).
  assert ((st_heap st ++ [el]) !! length (st_heap st) = Some el) as Hnew
    by by rewrite list_lookup_middle.
  destruct (st_e st) as [i|] eqn:He; simpl.
  - destruct (modify _ _ _) as [heap'|] eqn:Hm; simpl; [|done].
    apply modify_inv in Hm as [_ ->]. intros [= <-]. simpl.
    rewrite list_lookup_alter, Hnew.
    case_decide; [subst i; rewrite Hnew|]; eexists; (split; [done|]);
      simpl; by rewrite collect_Attributes_fmap.
  - intros [= <-]. simpl. exists el. split; [done|].
    simpl. by rewrite collect_Attributes_fmap.
Qed.

Lemma run_CharData_outside ds st :
  st_e st = None → run s (xml.CharData <$> ds) st = Some st.
Proof.
  intros He. induction ds as [|d ds IH]; [done|].
  csimpl. by rewrite He.
Qed.

Lemma alter_insert {A} (f : A → A) i (l : list A) x :
  l !! i = Some x → alter f i l = <[i := f x]> l.
Proof.
  intros Hx. rewrite list_insert_alter. apply list_alter_ext; [|done].
  intros y Hy. congruence.
Qed.

End Claims.

(** ** The tests of dom_test.go on the embedding *)

(** TestParserDefaultsToTrimmingCharData (lines 89-99). *)
Example test_default_trims :
  Parse (H := example_Externals) NewDOMParser (feed foo_bar io_EOF)
    = Return (Some ([ {| Node_Document := Some the_Document; Node_Parent := None;
                         Node_Name := "foo"; Node_Attributes := [];
                         Node_Text := "bar"; Node_Children := [] |} ],
                     {| Root := Some 0;
                        ProcInst := "<?xml version='1.0' encoding='UTF-8'?>";
                        Directives := [] |})) None.
Proof. reflexivity. Qed.

(** TestParserWithPreserveWhitespaceDoesNotTrimCharData (lines 101-111). *)
Example test_preserve_keeps :
  Parse (H := example_Externals) (PreserveWhitespace NewDOMParser true) (feed foo_bar io_EOF)
    = Return (Some ([ {| Node_Document := Some the_Document; Node_Parent := None;
                         Node_Name := "foo"; Node_Attributes := [];
                         Node_Text := " bar "; Node_Children := [] |} ],
                     {| Root := Some 0;
                        ProcInst := "<?xml version='1.0' encoding='UTF-8'?>";
                        Directives := [] |})) None.
Proof. reflexivity. Qed.

(** TestParseNamespaces (lines 9-54), both cases. *)
Example test_namespaces_xlink :
  Attribute_Name <$> collect_Attributes xlink_declared = ["xmlns:xlink"; "xlink:href"].
Proof. reflexivity. Qed.

Example test_namespaces_xsi :
  Attribute_Name <$> collect_Attributes xsi_declared = ["xml:lang"; "xsi:type"; "xmlns:xsi"].
Proof. reflexivity. Qed.

Lemma open_depth_app ts1 ts2 d :
  open_depth d (ts1 ++ ts2) = open_depth d ts1 ≫= λ d', open_depth d' ts2.
Proof.
  revert d. induction ts1 as [|t ts1 IH]; intros d; [done|].
  destruct t; simpl; try apply IH. destruct d; [done|apply IH].
Qed.

(** Closed goals [uri ∉ reserved_urls]. *)
Ltac not_reserved :=
  unfold reserved_urls, xmlnsUrl, xmlUrl, xlinkUrl, xsiUrl;
  rewrite !not_elem_of_cons; split_and!;
  first [discriminate | apply not_elem_of_nil].

(** * The claims *)

(** ** C1: end of input before any token *)

(** C1, as stated, fails.  On the decoder of an empty input, whose first
    call of [Token] returns [nil, io.EOF], [Parse] leaves through the
    guard of lines 101-103: it returns no document and the error
    [io.EOF]. *)
Lemma Parse_empty_input_fails :
  Parse (H := example_Externals) NewDOMParser (feed [] io_EOF)
    = Return None (Some io_EOF) ∧
  ¬ ∃ heap d, Parse (H := example_Externals) NewDOMParser (feed [] io_EOF)
                = Return (Some (heap, d)) None ∧ Root d = None.
Proof. split; [done|]. by intros (heap & d & ? & _). Qed.

(** C1, amended.  When the first call of [Token] reports end of input
    (an empty byte stream), [Parse] returns no document and the error
    [io.EOF].  When the decoder delivers character data only and then
    reports end of input (a byte stream of white space arrives as
    character data), [Parse] succeeds with a document that has no root. *)
Theorem Parse_end_of_input_first `{Externals} (s : domParserSettings) :
  Parse s [] = Return None (Some io_EOF) ∧
  (∀ rest, Parse s (fail io_EOF :: rest) = Return None (Some io_EOF)) ∧
  (∀ data more rest,
     Parse s ((ok <$> xml.CharData data :: (xml.CharData <$> more)) ++ fail io_EOF :: rest)
       = Return (Some ([], new_Document)) None).
Proof.
  split_and!; [done|done|]. intros data more rest.
  rewrite Parse_tokens.
  by rewrite (run_CharData_outside s (data :: more) initial).
Qed.

(** A stream of two blanks: one character-data token, then end of input. *)
Lemma Parse_end_of_input_first_witness :
  Parse (H := example_Externals) NewDOMParser (feed [xml.CharData "  "] io_EOF)
    = Return (Some ([], new_Document)) None.
Proof.
  destruct (Parse_end_of_input_first (H := example_Externals) NewDOMParser)
    as (_ & _ & Hspace).
  exact (Hspace "  " [] []).
Defined.


(** ** C2: attributes in a namespace that has no fixed prefix *)

(** C2, as stated, fails.  The tag of [foo_declared] declares the prefix
    foo for http://example.com/foo, and its second attribute is in that
    namespace with local name bar.  The claim wants it stored as foo:bar;
    line 129 composes the name from [attr.Name.Space], the URI itself. *)
Lemma declared_prefix_is_not_stored :
  Parse (H := example_Externals) NewDOMParser
      (feed [xml.StartElement (plain "a") foo_declared; xml.EndElement (plain "a")] io_EOF)
    = Return (Some ([ {| Node_Document := Some the_Document; Node_Parent := None;
                         Node_Name := "a";
                         Node_Attributes :=
                           [ {| Attribute_Name := "xmlns:foo";
                                Attribute_Value := "http://example.com/foo" |};
                             {| Attribute_Name := "http://example.com/foo:bar";
                                Attribute_Value := "v" |} ];
                         Node_Text := ""; Node_Children := [] |} ],
                     {| Root := Some 0; ProcInst := ""; Directives := [] |})) None ∧
  declared_prefix foo_declared "http://example.com/foo" = Some "foo" ∧
  ¬ (∀ a pfx,
       a ∈ foo_declared →
       xml.Space (xml.AName a) ≠ "" →
       xml.Space (xml.AName a) ∉ reserved_urls →
       declared_prefix foo_declared (xml.Space (xml.AName a)) = Some pfx →
       attribute_name a = Sprintf_s_colon_s pfx (xml.Local (xml.AName a))).
Proof.
  split_and!; [done|done|]. intros Hclaim.
  specialize (Hclaim
    {| xml.AName := {| xml.Space := "http://example.com/foo"; xml.Local := "bar" |};
       xml.Value := "v" |} "foo").
  discriminate Hclaim.
  - by right; left.
  - done.
  - not_reserved.
  - done.
Qed.

(** C2, amended.  For every attribute of a start tag whose [Name.Space]
    is not empty and is none of the four reserved URIs, the name stored
    in the new node is [Name.Space], a colon and [Name.Local]: the
    namespace string as the decoder delivered it stands in the place of
    a prefix.  The value is stored as delivered, at the attribute's
    position. *)
Theorem other_namespace_stored_verbatim `{Externals} (s : domParserSettings)
    name attrs st st' k a :
  step s (xml.StartElement name attrs) st = Some st' →
  attrs !! k = Some a →
  xml.Space (xml.AName a) ≠ "" →
  xml.Space (xml.AName a) ∉ reserved_urls →
  ∃ el, st_heap st' !! length (st_heap st) = Some el ∧
        Node_Attributes el !! k =
          Some {| Attribute_Name :=
                    xml.Space (xml.AName a) +:+ ":" +:+ xml.Local (xml.AName a);
                  Attribute_Value := xml.Value a |}.
Proof.
  intros Hstep Hk Hne Hres.
  destruct (step_StartElement_stored s _ _ _ _ Hstep) as (el & Hel & _ & _ & Hattrs).
  exists el. split; [done|].
  rewrite Hattrs, list_lookup_fmap, Hk. simpl. unfold make_Attribute. f_equal. f_equal.
  unfold attribute_name, reserved_urls in *. simpl.
  rewrite decide_True by done.
  rewrite !not_elem_of_cons in Hres. destruct Hres as (?&?&?&?&_).
  by rewrite !decide_False by done.
Qed.

(** The attribute foo:bar of [foo_declared], stored under the URI. *)
Lemma other_namespace_stored_verbatim_witness :
  ∃ el, st_heap (default initial (step (H := example_Externals) NewDOMParser
                   (xml.StartElement (plain "a") foo_declared) initial)) !! 0 = Some el ∧
        Node_Attributes el !! 1 =
          Some {| Attribute_Name := "http://example.com/foo:bar"; Attribute_Value := "v" |}.
Proof.
  apply (other_namespace_stored_verbatim (H := example_Externals) NewDOMParser
           (plain "a") foo_declared initial _ 1
           {| xml.AName := {| xml.Space := "http://example.com/foo"; xml.Local := "bar" |};
              xml.Value := "v" |}).
  - reflexivity.
  - reflexivity.
  - discriminate.
  - not_reserved.
Defined.

(** ** C3: the four reserved namespaces, and attributes without one *)

(** C3.  For every attribute of a start tag, the new node stores at the
    same position an attribute with the value as delivered and a name
    that depends on [Name.Space] and [Name.Local] only (a token carries
    no source prefix): the fixed prefix and the local name when the
    namespace is one of the four reserved URIs, the local name alone
    when the attribute has no namespace. *)
Theorem reserved_namespace_prefix `{Externals} (s : domParserSettings)
    name attrs st st' k a :
  step s (xml.StartElement name attrs) st = Some st' →
  attrs !! k = Some a →
  ∃ el stored,
    st_heap st' !! length (st_heap st) = Some el ∧
    Node_Attributes el !! k = Some stored ∧
    Attribute_Value stored = xml.Value a ∧
    (xml.Space (xml.AName a) = "http://www.w3.org/2000/xmlns" →
       Attribute_Name stored = "xmlns:" +:+ xml.Local (xml.AName a)) ∧
    (xml.Space (xml.AName a) = "http://www.w3.org/XML/1998/namespace" →
       Attribute_Name stored = "xml:" +:+ xml.Local (xml.AName a)) ∧
    (xml.Space (xml.AName a) = "http://www.w3.org/1999/xlink" →
       Attribute_Name stored = "xlink:" +:+ xml.Local (xml.AName a)) ∧
    (xml.Space (xml.AName a) = "http://www.w3.org/2001/XMLSchema-instance" →
       Attribute_Name stored = "xsi:" +:+ xml.Local (xml.AName a)) ∧
    (xml.Space (xml.AName a) = "" →
       Attribute_Name stored = xml.Local (xml.AName a)).
Proof.
  intros Hstep Hk.
  destruct (step_StartElement_stored s _ _ _ _ Hstep) as (el & Hel & _ & _ & Hattrs).
  exists el, (make_Attribute a). split; [done|].
  split; [by rewrite Hattrs, list_lookup_fmap, Hk|].
  split; [done|].
  unfold make_Attribute, attribute_name. simpl.
  split_and!; by intros ->.
Qed.

(** The attribute xlink:href of [xlink_declared]. *)
Lemma reserved_namespace_prefix_witness :
  ∃ el stored,
    st_heap (default initial (step (H := example_Externals) NewDOMParser
               (xml.StartElement (plain "root") xlink_declared) initial)) !! 0 = Some el ∧
    Node_Attributes el !! 1 = Some stored ∧
    Attribute_Value stored = "X" ∧ Attribute_Name stored = "xlink:href".
Proof.
  destruct (reserved_namespace_prefix (H := example_Externals) NewDOMParser
              (plain "root") xlink_declared initial _ 1
              {| xml.AName := {| xml.Space := xlinkUrl; xml.Local := "href" |};
                 xml.Value := "X" |} eq_refl eq_refl)
    as (el & stored & Hel & Hstored & Hvalue & _ & _ & Hxlink & _).
  exists el, stored. split_and!; [exact Hel|exact Hstored|exact Hvalue|].
  exact (Hxlink eq_refl).
Defined.

(** ** C4: character data *)

(** C4.  In every state the loop reaches: when the cursor points to a
    node, a character-data token changes nothing but that node's [Text],
    which becomes the token's content, trimmed by [bytes.TrimSpace]
    unless [preserveWhitespace] is set; the text is replaced, so of two
    such tokens in a row only the second one shows.  When there is no
    cursor the token changes nothing. *)
Theorem CharData_sets_Text `{Externals} (s : domParserSettings) pre st data :
  run s pre initial = Some st →
  let v := if preserveWhitespace s then data else bytes_TrimSpace data in
  (∀ i, st_e st = Some i →
     ∃ n, st_heap st !! i = Some n ∧
          step s (xml.CharData data) st =
            Some {| st_heap := <[i := set_Text v n]> (st_heap st);
                    st_doc := st_doc st; st_e := Some i |} ∧
          Node_Text (set_Text v n) = v ∧
          ∀ earlier, run s [xml.CharData earlier; xml.CharData data] st
                     = step s (xml.CharData data) st) ∧
  (st_e st = None → step s (xml.CharData data) st = Some st).
Proof.
  intros Hrun v. split; [|by simpl; intros ->].
  intros i He.
  pose proof (run_wf s _ _ _ wf_initial Hrun) as Hwf.
  destruct (lookup_lt_is_Some_2 (st_heap st) i) as [n Hn]; [by apply Hwf|].
  exists n. split; [done|].
  assert (∀ d, step s (xml.CharData d) st =
            Some {| st_heap := alter (set_Text (if preserveWhitespace s then d
                                                else bytes_TrimSpace d)) i (st_heap st);
                    st_doc := st_doc st; st_e := Some i |}) as Hstep.
  { intros d. simpl. rewrite He. by erewrite modify_Some. }
  split; [by rewrite Hstep, (alter_insert _ _ _ n)|].
  split; [done|].
  intros earlier. cbn [run]. rewrite !Hstep. simpl.
  unfold modify. rewrite list_lookup_alter_eq, Hn. simpl.
  by rewrite list_alter_alter_eq.
Qed.

(** The character data of [foo_bar], in the state after its start tag. *)
Lemma CharData_sets_Text_witness :
  step (H := example_Externals) NewDOMParser (xml.CharData " bar ")
    {| st_heap := [new_element (plain "foo") [] None];
       st_doc := set_Root (Some 0) (set_ProcInst "<?xml version='1.0' encoding='UTF-8'?>" new_Document);
       st_e := Some 0 |}
  = Some {| st_heap := [set_Text "bar" (new_element (plain "foo") [] None)];
            st_doc := set_Root (Some 0) (set_ProcInst "<?xml version='1.0' encoding='UTF-8'?>" new_Document);
            st_e := Some 0 |}.
Proof.
  destruct (CharData_sets_Text (H := example_Externals) NewDOMParser
              (take 3 foo_bar) _ " bar " eq_refl) as [Hcursor _].
  destruct (Hcursor 0 eq_refl) as (n & Hn & Hstep & _).
  injection Hn as <-. exact Hstep.
Defined.

(** ** C5: the root *)

(** C5.  When [Parse] returns a document, its [Root] is set exactly when
    a start-element token was among the tokens processed; and then the
    root is the node of the first start tag (the outermost tag of a
    document with one root element), named by the tag's local name
    whatever its namespace, and without a parent. *)
Theorem root_of_successful_parse `{Externals} (s : domParserSettings) r heap d :
  Parse s r = Return (Some (heap, d)) None →
  (Root d ≠ None ↔ ∃ name attr, xml.StartElement name attr ∈ tokens_of r) ∧
  (∀ name attr, outermost (tokens_of r) = Some (name, attr) →
     ∃ root n, Root d = Some root ∧ heap !! root = Some n ∧
               Node_Name n = xml.Local name ∧ Node_Parent n = None).
Proof.
  intros (_ & _ & _ & st & Hrun & Hwf & -> & ->)%Parse_success.
  pose proof (run_origin s _ _ _ Hrun) as Horigin.
  change (origin <$> st_heap st = origin_of_tag <$> start_elements (tokens_of r))
    in Horigin.
  pose proof (wf_root _ Hwf) as Hroot.
  assert ((∃ name attr, xml.StartElement name attr ∈ tokens_of r)
          ↔ start_elements (tokens_of r) ≠ []) as Hstart.
  { split.
    - intros (name & attr & Hin) Hnil.
      assert ((name, attr) ∈ start_elements (tokens_of r)) as Hin'.
      { apply list_elem_of_omap. by exists (xml.StartElement name attr). }
      rewrite Hnil in Hin'. by apply elem_of_nil in Hin'.
    - destruct (start_elements (tokens_of r)) as [|[name attr] tags] eqn:Htags; [done|].
      intros _. exists name, attr.
      assert ((name, attr) ∈ start_elements (tokens_of r)) as Hin
        by (rewrite Htags; by left).
      apply list_elem_of_omap in Hin as (t & Hin & Ht).
      by destruct t; simplify_eq. }
  split.
  - rewrite Hstart, Hroot.
    destruct (st_heap st) as [|n heap]; simpl in Horigin.
    + symmetry in Horigin. apply fmap_nil_inv in Horigin. by rewrite Horigin.
    + destruct (start_elements (tokens_of r));
        [discriminate Horigin|split; intros _; discriminate].
  - intros name attr Hout. unfold outermost in Hout.
    destruct (start_elements (tokens_of r)) as [|tag tags]; simplify_eq/=.
    destruct (st_heap st) as [|n heap] eqn:Hheap; simplify_eq/=.
    exists 0, n. split_and!; try done.
    { unfold origin, origin_of_tag in *. by simplify_eq/=. }
    destruct (Node_Parent n) as [i|] eqn:Hparent; [|done].
    assert (st_heap st !! 0 = Some n) as Hn by by rewrite Hheap.
    pose proof (wf_parent _ Hwf _ _ _ Hn Hparent). lia.
Qed.

(** The root of [foo_bar]. *)
Lemma root_of_successful_parse_witness :
  ∃ root n,
    Some 0 = Some root ∧
    [set_Text "bar" (new_element (plain "foo") [] None)] !! root = Some n ∧
    Node_Name n = "foo" ∧ Node_Parent n = None.
Proof.
  destruct (root_of_successful_parse (H := example_Externals) NewDOMParser
              (feed foo_bar io_EOF)
              [set_Text "bar" (new_element (plain "foo") [] None)]
              (set_Root (Some 0)
                 (set_ProcInst "<?xml version='1.0' encoding='UTF-8'?>" new_Document))
              eq_refl) as [_ Hroot].
  exact (Hroot (plain "foo") [] eq_refl).
Defined.

(** ** C6: errors of the token source *)

(** C6.  When the decoder delivers the tokens [ts] (none, for the first
    pull) and then reports an error other than [io.EOF], [Parse] never
    returns a document; and unless an end-element token of [ts] arrived
    while no element was open, which the decoder rules out and where the
    loop body panics, it returns exactly that error. *)
Theorem error_is_propagated `{Externals} (s : domParserSettings) ts e rest :
  e ≠ io_EOF →
  (ts = [] → Parse s ((ok <$> ts) ++ fail e :: rest) = Return None (Some e)) ∧
  (is_Some (open_depth 0 ts) →
     Parse s ((ok <$> ts) ++ fail e :: rest) = Return None (Some e)) ∧
  (∀ dom err, Parse s ((ok <$> ts) ++ fail e :: rest) ≠ Return (Some dom) err).
Proof.
  intros He.
  assert (∀ st, finish (Some e) st = Return None (Some e)) as Hfinish
    by (intros st; by destruct e).
  destruct ts as [|t ts].
  { split_and!; by rewrite ?Parse_spec. }
  rewrite Parse_tokens.
  pose proof (run_open_depth s (t :: ts) initial 0 wf_initial eq_refl) as Hrun.
  split_and!; [done| |].
  - intros [d Hd]. rewrite Hd in Hrun. destruct Hrun as (st' & -> & _). apply Hfinish.
  - intros dom err. destruct (run s (t :: ts) initial) as [st'|]; [|done].
    by rewrite Hfinish.
Qed.

(** [foo_bar] cut short before its end tag. *)
Lemma error_is_propagated_witness :
  Parse (H := example_Externals) NewDOMParser
      ((ok <$> take 4 foo_bar) ++ fail (SyntaxError "unexpected EOF") :: [])
    = Return None (Some (SyntaxError "unexpected EOF")).
Proof.
  destruct (error_is_propagated (H := example_Externals) NewDOMParser
              (take 4 foo_bar) (SyntaxError "unexpected EOF") [])
    as (_ & Hlater & _).
  - discriminate.
  - apply Hlater. exists 1. reflexivity.
Defined.

(** ** C7: the tree *)



(** ** C8: processing instructions and directives *)

(** C8.  A processing-instruction token replaces the document's
    [ProcInst] by the token's string and changes nothing else; a
    directive token appends its string to [Directives] and changes
    nothing else.  So a returned document holds the string of the last
    processing instruction among the tokens (the empty string when there
    is none) and the strings of all the directives, in their order. *)
Theorem ProcInst_last_Directives_all `{Externals} (s : domParserSettings) :
  (∀ target inst st,
     step s (xml.ProcInst target inst) st =
       Some {| st_heap := st_heap st;
               st_doc := {| Root := Root (st_doc st);
                            ProcInst := stringifyProcInst target inst;
                            Directives := Directives (st_doc st) |};
               st_e := st_e st |}) ∧
  (∀ data st,
     step s (xml.Directive data) st =
       Some {| st_heap := st_heap st;
               st_doc := {| Root := Root (st_doc st);
                            ProcInst := ProcInst (st_doc st);
                            Directives := Directives (st_doc st) ++ [stringifyDirective data] |};
               st_e := st_e st |}) ∧
  (∀ r heap d,
     Parse s r = Return (Some (heap, d)) None →
     ProcInst d = default "" (last (proc_insts (tokens_of r))) ∧
     Directives d = directives (tokens_of r)).
Proof.
  split_and!; [done|done|].
  intros r heap d (_ & _ & _ & st & Hrun & _ & -> & ->)%Parse_success.
  split.
  - apply (run_ProcInst s _ _ _ Hrun).
  - apply (run_Directives s _ _ _ Hrun).
Qed.

(** The strings kept from [prolog_twice]. *)
Lemma ProcInst_last_Directives_all_witness :
  "<?style href='a.css'?>"
    = default "" (last (proc_insts (H := example_Externals) prolog_twice)) ∧
  ["<!DOCTYPE a>"; "<!ignored>"] = directives (H := example_Externals) prolog_twice.
Proof.
  destruct (ProcInst_last_Directives_all (H := example_Externals) NewDOMParser)
    as (_ & _ & Hparse).
  pose proof (Hparse (feed prolog_twice io_EOF) _ _ eq_refl) as Hdoc.
  exact Hdoc.
Defined.


(** ** C9: the cursor at an end-element token *)

(** C9.  When every end-element token of [ts] arrives while an element
    is open (as it does when each one closes a start tag that is still
    open), the loop body runs through [ts] without a panic, and at each
    end-element token the cursor is not nil.  The move to the parent is
    not guarded: with a nil cursor the end-element case panics, so a
    token sequence in which an end-element token arrives while no
    element is open makes [Parse] panic. *)
Theorem end_element_needs_open_element `{Externals} (s : domParserSettings) :
  (∀ ts, is_Some (open_depth 0 ts) →
     is_Some (run s ts initial) ∧
     ∀ pre name post, ts = pre ++ xml.EndElement name :: post →
       ∃ st i, run s pre initial = Some st ∧ st_e st = Some i) ∧
  (∀ st name, st_e st = None → step s (xml.EndElement name) st = None) ∧
  (∀ ts, open_depth 0 ts = None → run s ts initial = None) ∧
  (∀ t ts e rest,
     open_depth 0 (t :: ts) = None →
     Parse s ((ok <$> t :: ts) ++ fail e :: rest) = Panic).
Proof.
  assert (∀ ts, match open_depth 0 ts with
                | Some d' => ∃ st', run s ts initial = Some st' ∧ wf st' ∧
                                    open_chain (st_heap st') (st_e st') d'
                | None => run s ts initial = None
                end) as Hrun.
  { intros ts. by apply (run_open_depth s ts initial 0 wf_initial). }
  split_and!.
  - intros ts [d Hd]. split.
    + specialize (Hrun ts). rewrite Hd in Hrun. destruct Hrun as (st' & -> & _). by eexists.
    + intros pre name post ->. rewrite open_depth_app in Hd.
      specialize (Hrun pre).
      destruct (open_depth 0 pre) as [[|d1]|]; simplify_eq/=.
      destruct Hrun as (st & Hst & _ & i & n & He & _). by exists st, i.
  - intros st name He. simpl. by rewrite He.
  - intros ts Hd. specialize (Hrun ts). by rewrite Hd in Hrun.
  - intros t ts e rest Hd. rewrite Parse_tokens.
    specialize (Hrun (t :: ts)). rewrite Hd in Hrun. by rewrite Hrun.
Qed.

(** [a_b_c], and [a_b_c] followed by one more end tag. *)
Lemma end_element_needs_open_element_witness :
  is_Some (run (H := example_Externals) NewDOMParser a_b_c initial) ∧
  Parse (H := example_Externals) NewDOMParser
      (feed (a_b_c ++ [xml.EndElement (plain "a")]) io_EOF) = Panic.
Proof.
  destruct (end_element_needs_open_element (H := example_Externals) NewDOMParser)
    as (Hopen & _ & _ & Hpanic).
  split.
  - apply (Hopen a_b_c). exists 0. reflexivity.
  - apply (Hpanic (xml.StartElement (plain "a") [])
               (tail a_b_c ++ [xml.EndElement (plain "a")]) io_EOF []).
    reflexivity.
Defined.


(** ** C10: tokens without a case *)

(** C10.  A token that is none of the five kinds with a case in the type
    switch, a comment that is, leaves the builder's variables as they
    are: the arena with every node in it, the document and the cursor.
    Taking the comments out of a token sequence does not change what the
    loop body computes from it. *)
Theorem other_tokens_are_skipped `{Externals} (s : domParserSettings) :
  (∀ t st, handled t = false → step s t st = Some st) ∧
  (∀ data st, step s (xml.Comment data) st = Some st) ∧
  (∀ ts st, run s (filter (λ t, handled t = true) ts) st = run s ts st).
Proof.
  split_and!.
  - by intros [] st.
  - done.
  - intros ts. induction ts as [|t ts IH]; intros st; [done|].
    rewrite filter_cons. case_decide as Ht.
    + cbn [run]. destruct (step s t st); simpl; [apply IH|done].
    + destruct t; by try apply IH.
Qed.

(** [prolog_twice] with and without its comment. *)
Lemma other_tokens_are_skipped_witness :
  run (H := example_Externals) NewDOMParser
      (filter (λ t, handled t = true) prolog_twice) initial
    = run (H := example_Externals) NewDOMParser prolog_twice initial.
Proof.
  destruct (other_tokens_are_skipped (H := example_Externals) NewDOMParser)
    as (_ & _ & Hrun).
  exact (Hrun prolog_twice initial).
Defined.


(** * Further properties of the builder *)

Section Blocks.
Context `{Externals}.
Variable s : domParserSettings.

Lemma chain_to_later heap heap' n0 base e d :
  later_arena heap heap' → chain_to heap n0 base e d → chain_to heap' n0 base e d.
Proof.
  intros Hlater. revert e. induction d as [|d IH]; intros e; simpl; [done|].
  intros (i & n & -> & Hi & Hn & Hc).
  destruct (Hlater i n Hn) as (n' & Hn' & _ & Hp & _).
  exists i, n'. split_and!; try done. rewrite Hp. by apply IH.
Qed.

Lemma frame_refl n0 base heap : frame n0 base heap heap.
Proof. by intros j _ _. Qed.

Lemma frame_trans n0 base h1 h2 h3 :
  frame n0 base h1 h2 → frame n0 base h2 h3 → frame n0 base h1 h3.
Proof. intros H12 H23 j Hj Hb. by rewrite H23, H12. Qed.

(** In a chain the cursor is [base] or a node at [n0] or above. *)
Lemma chain_to_cursor heap n0 base e d i :
  chain_to heap n0 base e d → e = Some i → base = Some i ∨ n0 ≤ i.
Proof.
  destruct d; simpl.
  - intros -> ->. by left.
  - intros (i' & n & -> & Hi & _) [= ->]. by right.
Qed.

(** One iteration changes no node but the one under the cursor. *)
Lemma step_frame t st st' n0 base d :
  wf st → n0 ≤ length (st_heap st) →
  chain_to (st_heap st) n0 base (st_e st) d →
  step s t st = Some st' →
  frame n0 base (st_heap st) (st_heap st').
Proof.
  intros Hwf Hn0 Hc Hstep j Hj Hb.
  assert (st_e st ≠ Some j) as Hej.
  { intros He. destruct (chain_to_cursor _ _ _ _ _ _ Hc He); [done|lia]. }
  destruct t as [name attr|name|data|data|target inst|data].
  - rewrite step_StartElement in Hstep by done. injection Hstep as <-. simpl.
    fold (start_heap (st_heap st) (st_e st) (new_element name attr (st_e st))).
    rewrite start_heap_lookup by apply Hwf.
    rewrite decide_False by lia. by rewrite decide_False.
  - simpl in Hstep. destruct (st_e st); [|done].
    destruct (load _ _); by simplify_eq/=.
  - simpl in Hstep. destruct (st_e st) as [i|]; [|by simplify_eq].
    destruct (modify _ _ _) as [heap'|] eqn:Hm; simplify_eq/=.
    apply modify_inv in Hm as [_ ->]. apply list_lookup_alter_ne. congruence.
  - by simplify_eq/=.
  - by simplify_eq/=.
  - by simplify_eq/=.
Qed.

Lemma step_CharData_cursor data st st' :
  step s (xml.CharData data) st = Some st' →
  st_e st' = st_e st ∧ length (st_heap st') = length (st_heap st).
Proof.
  simpl. destruct (st_e st) as [i|] eqn:He; [|by intros [= <-]].
  destruct (modify _ _ _) as [heap'|] eqn:Hm; simpl; [|done].
  apply modify_inv in Hm as [_ ->]. intros [= <-]. simpl.
  by rewrite length_alter.
Qed.

(** A run of tokens that never closes more than it opened, from a state
    whose cursor is [d] steps above [base]. *)
Lemma run_block ts st n0 base d d' :
  wf st → n0 ≤ length (st_heap st) →
  chain_to (st_heap st) n0 base (st_e st) d →
  open_depth d ts = Some d' →
  ∃ st', run s ts st = Some st' ∧ wf st' ∧ n0 ≤ length (st_heap st') ∧
         chain_to (st_heap st') n0 base (st_e st') d' ∧
         frame n0 base (st_heap st) (st_heap st').
Proof.
  revert st d. induction ts as [|t ts IH]; intros st d Hwf Hn0 Hc Hd.
  { simpl in Hd. injection Hd as <-. exists st. split_and!; done || apply frame_refl. }
  assert (∀ st1 d1, step s t st = Some st1 →
            n0 ≤ length (st_heap st1) →
            chain_to (st_heap st1) n0 base (st_e st1) d1 →
            open_depth d1 ts = Some d' →
            ∃ st', run s (t :: ts) st = Some st' ∧ wf st' ∧ n0 ≤ length (st_heap st') ∧
                   chain_to (st_heap st') n0 base (st_e st') d' ∧
                   frame n0 base (st_heap st) (st_heap st')) as Hnext.
  { intros st1 d1 Hstep Hn1 Hc1 Hd1. cbn [run]. rewrite Hstep. simpl.
    destruct (IH st1 d1) as (st' & Hrun & Hwf' & Hn' & Hc' & Hf'); try done.
    { by eapply step_wf. }
    exists st'. split_and!; try done.
    eapply frame_trans; [by eapply step_frame|done]. }
  destruct t as [name attr|name|data|data|target inst|data].
  - pose proof (step_StartElement s name attr st Hwf) as Hstep.
    eapply (Hnext _ (S d)); [exact Hstep| | |exact Hd].
    + simpl. fold (start_heap (st_heap st) (st_e st) (new_element name attr (st_e st))).
      rewrite start_heap_length. lia.
    + simpl. fold (start_heap (st_heap st) (st_e st) (new_element name attr (st_e st))).
      eexists _, _. split_and!; [done|done| |].
      * rewrite start_heap_lookup by apply Hwf. by rewrite decide_True.
      * simpl. eapply chain_to_later; [|done].
        apply (step_later_arena s _ _ _ Hstep).
  - destruct d as [|d]; [done|]. simpl in Hc, Hd.
    destruct Hc as (i & n & He & Hi & Hn & Hc).
    eapply (Hnext {| st_heap := st_heap st; st_doc := st_doc st;
                     st_e := Node_Parent n |} d); try done.
    simpl. rewrite He. unfold load. by rewrite Hn.
  - destruct (step s (xml.CharData data) st) as [st1|] eqn:Hstep.
    + destruct (step_CharData_cursor _ _ _ Hstep) as [He1 Hlen1].
      pose proof (step_later_arena s _ _ _ Hstep) as Hlater.
      eapply (Hnext st1 d); [done| | |exact Hd].
      * by rewrite Hlen1.
      * rewrite He1. by eapply chain_to_later.
    + exfalso. simpl in Hstep. destruct (st_e st) as [i|] eqn:He; [|done].
      destruct (lookup_lt_is_Some_2 (st_heap st) i) as [n Hn]; [by apply Hwf|].
      by erewrite modify_Some in Hstep.
  - by eapply (Hnext st d).
  - by eapply (Hnext _ d).
  - by eapply (Hnext _ d).
Qed.

End Blocks.

(** ** X1: a complete run of tokens gives the cursor back *)

(** X1.  In any state the loop reaches, processing a run of tokens in
    which every end tag closes an element opened within the run, and
    every such element is closed (a complete element, several siblings,
    text, comments), never panics and leaves the cursor where it was.
    Of the nodes allocated before, only the one under the cursor can
    have changed. *)
Theorem complete_block_restores_cursor `{Externals} (s : domParserSettings)
    pre block st :
  run s pre initial = Some st →
  open_depth 0 block = Some 0 →
  ∃ st', run s block st = Some st' ∧
         st_e st' = st_e st ∧
         ∀ j, j < length (st_heap st) → st_e st ≠ Some j →
              st_heap st' !! j = st_heap st !! j.
Proof.
  intros Hpre Hblock.
  pose proof (run_wf s _ _ _ wf_initial Hpre) as Hwf.
  destruct (run_block s block st (length (st_heap st)) (st_e st) 0 0)
    as (st' & Hrun & _ & _ & Hc & Hframe); try done.
  exists st'. split_and!; done.
Qed.

(** After the start tag of a: b and c come and go, the cursor is a again. *)
Lemma complete_block_restores_cursor_witness :
  ∃ st', run (H := example_Externals) NewDOMParser (take 4 (tail a_b_c))
           {| st_heap := [new_element (plain "a") [] None];
              st_doc := set_Root (Some 0) new_Document; st_e := Some 0 |} = Some st' ∧
         st_e st' = Some 0.
Proof.
  destruct (complete_block_restores_cursor (H := example_Externals) NewDOMParser
              (take 1 a_b_c) (take 4 (tail a_b_c)) _ eq_refl eq_refl)
    as (st' & Hrun & He & _).
  exists st'. split; [exact Hrun|exact He].
Defined.

(** ** X2: text after child elements replaces the text before them *)

(** X2.  When character data arrives for an element after a complete run
    of tokens inside it (child elements, earlier text, comments), the
    element's [Text] is that last character data alone, trimmed unless
    [preserveWhitespace] is set: what the element's earlier character
    data stored is gone. *)
Theorem text_after_children_wins `{Externals} (s : domParserSettings)
    pre block data st i :
  run s pre initial = Some st →
  st_e st = Some i →
  open_depth 0 block = Some 0 →
  ∃ st' n, run s (block ++ [xml.CharData data]) st = Some st' ∧
           st_e st' = Some i ∧
           st_heap st' !! i = Some n ∧
           Node_Text n = if preserveWhitespace s then data else bytes_TrimSpace data.
Proof.
  intros Hpre He Hblock.
  pose proof (run_wf s _ _ _ wf_initial Hpre) as Hwf.
  destruct (run_block s block st (length (st_heap st)) (st_e st) 0 0)
    as (st1 & Hrun & Hwf1 & _ & Hc & _); try done.
  simpl in Hc. rewrite He in Hc.
  destruct (lookup_lt_is_Some_2 (st_heap st1) i) as [n Hn]; [by apply Hwf1|].
  rewrite run_app, Hrun. simpl. rewrite Hc. erewrite modify_Some by done. simpl.
  eexists _, _. split_and!; [done|done| |].
  - simpl. by rewrite list_lookup_alter_eq, Hn.
  - done.
Qed.

(** [<a>x<b></b> </a>]: the blank after b replaces x, and is trimmed away. *)
Lemma text_after_children_wins_witness :
  ∃ st' n, run (H := example_Externals) NewDOMParser
             ([xml.CharData "x"; xml.StartElement (plain "b") []; xml.EndElement (plain "b")]
              ++ [xml.CharData " "])
             {| st_heap := [new_element (plain "a") [] None];
                st_doc := set_Root (Some 0) new_Document; st_e := Some 0 |} = Some st' ∧
           st_e st' = Some 0 ∧
           st_heap st' !! 0 = Some n ∧
           Node_Text n = "".
Proof.
  exact (text_after_children_wins (H := example_Externals) NewDOMParser
           (take 1 a_b_c)
           [xml.CharData "x"; xml.StartElement (plain "b") []; xml.EndElement (plain "b")]
           " " _ 0 eq_refl eq_refl eq_refl).
Defined.

(** ** X3 and X4: the tree and the parent pointers *)

Lemma ancestor_valid heap j k : ancestor heap j k → is_Some (heap !! j).
Proof. destruct 1; eauto. Qed.

(** In a state of the loop, the nodes of the tree are the nodes from
    which the root is reached by following [Parent]. *)
Lemma in_tree_ancestor st j :
  wf st →
  in_tree (st_heap st) (st_doc st) j
  ↔ ∃ root, Root (st_doc st) = Some root ∧ ancestor (st_heap st) j root.
Proof.
  intros Hwf. split.
  - induction 1 as [r Hr|i n j _ (root & Hroot & Hanc) Hn Hj].
    + exists r. split; [done|]. constructor.
      rewrite (wf_root _ Hwf) in Hr.
      destruct (st_heap st) as [|n0 heap]; simplify_eq/=. by eexists.
    + exists root. split; [done|].
      rewrite (wf_children _ Hwf _ _ Hn) in Hj.
      apply list_elem_of_filter in Hj as [Hj _]. unfold child_of in Hj.
      destruct (st_heap st !! j) as [c|] eqn:Hc; [|done].
      by eapply ancestor_up.
  - intros (root & Hroot & Hanc).
    induction Hanc as [j _|j n i k Hn Hp Hanc IH].
    + by constructor.
    + destruct (ancestor_valid _ _ _ Hanc) as [ni Hni].
      eapply in_tree_child; [by apply IH|done|].
      rewrite (wf_children _ Hwf _ _ Hni). apply list_elem_of_filter. split.
      * unfold child_of. by rewrite Hn.
      * apply elem_of_seq. apply lookup_lt_Some in Hn. lia.
Qed.

(** X3.  In a returned document, a node is in the tree (reachable from
    [Root] through [Children]) exactly when [Root] is reached from it by
    following [Parent].  A node without a parent that is not the root,
    which is what the start tag of a further top-level element
    allocates, is not in the tree. *)
Theorem tree_is_ancestry `{Externals} (s : domParserSettings) r heap d :
  Parse s r = Return (Some (heap, d)) None →
  (∀ j, in_tree heap d j ↔ ∃ root, Root d = Some root ∧ ancestor heap j root) ∧
  (∀ j n, heap !! j = Some n → Node_Parent n = None → Root d ≠ Some j →
          ¬ in_tree heap d j).
Proof.
  intros (_ & _ & _ & st & Hrun & Hwf & -> & ->)%Parse_success.
  split; [intros j; by apply in_tree_ancestor|].
  intros j n Hn Hp Hroot (root & Hr & Hanc)%in_tree_ancestor; [|done].
  destruct Hanc as [j _|j n' i k Hn' Hp' _]; congruence.
Qed.

(** [<a></a><z></z>]: the node of z has no parent and is not in the tree. *)
Lemma tree_is_ancestry_witness :
  ¬ in_tree [new_element (plain "a") [] None; new_element (plain "z") [] None]
      (set_Root (Some 0) new_Document) 1.
Proof.
  destruct (tree_is_ancestry (H := example_Externals) NewDOMParser
              (feed [xml.StartElement (plain "a") []; xml.EndElement (plain "a");
                     xml.StartElement (plain "z") []; xml.EndElement (plain "z")] io_EOF)
              [new_element (plain "a") [] None; new_element (plain "z") [] None]
              (set_Root (Some 0) new_Document) eq_refl) as [_ Hout].
  apply (Hout 1 (new_element (plain "z") [] None) eq_refl eq_refl).
  discriminate.
Defined.

Section OneRoot.
Context `{Externals}.
Variable s : domParserSettings.

Lemma rooted_alter f i heap :
  (∀ n, Node_Parent (f n) = Node_Parent n) → rooted heap → rooted (alter f i heap).
Proof.
  intros Hf Hrooted j n Hj Hp. rewrite list_lookup_alter in Hj.
  case_decide; [subst j|by eapply Hrooted].
  destruct (heap !! i) as [n0|] eqn:Hn0; simplify_eq/=.
  eapply Hrooted; [done|]. by rewrite <- Hf.
Qed.

Lemma run_one_root ts st st' seen d :
  wf st → open_chain (st_heap st) (st_e st) d →
  (seen = false → st_heap st = []) →
  rooted (st_heap st) →
  one_root seen d ts = true →
  run s ts st = Some st' →
  rooted (st_heap st').
Proof.
  revert st seen d. induction ts as [|t ts IH]; intros st seen d Hwf Hc Hseen Hr Hone Hrun.
  { by simplify_eq/=. }
  cbn [run] in Hrun. destruct (step s t st) as [st1|] eqn:Hstep; simplify_eq/=.
  pose proof (step_wf s _ _ _ Hwf Hstep) as Hwf1.
  pose proof (run_open_depth s [t] st d Hwf Hc) as Hd.
  cbn [run] in Hd. rewrite Hstep in Hd. simpl in Hd.
  destruct t as [name attr|name|data|data|target inst|data]; simpl in Hd.
  - destruct Hd as (? & [= <-] & _ & Hc1).
    rewrite step_StartElement in Hstep by done. injection Hstep as <-.
    assert (rooted (start_heap (st_heap st) (st_e st) (new_element name attr (st_e st))))
      as Hr1.
    { intros j n Hj Hp. rewrite start_heap_lookup in Hj by apply Hwf.
      destruct (decide (j = length (st_heap st))) as [->|Hne].
      - injection Hj as <-. simpl in Hp.
        destruct d as [|d]; simpl in Hc; [|destruct Hc as (?&?&?&_); congruence].
        apply andb_prop in Hone as [Hseen' _].
        rewrite Hseen; [done|]. by destruct seen.
      - case_decide.
        + destruct (st_heap st !! j) as [n0|] eqn:Hn0; simplify_eq/=. by eapply Hr.
        + by eapply Hr. }
    destruct d as [|d].
    + apply andb_prop in Hone as [_ Hone]. by eapply (IH _ true 1).
    + by eapply (IH _ true (S (S d))).
  - destruct d as [|d]; [done|]. destruct Hd as (? & [= <-] & _ & Hc1).
    simpl in Hstep. destruct (st_e st); [|done].
    destruct (load _ _); simplify_eq/=.
    by eapply (IH _ seen d).
  - destruct Hd as (? & [= <-] & _ & Hc1).
    eapply (IH st1 seen d); try done.
    + intros Hs. specialize (Hseen Hs).
      destruct (step_CharData_cursor s _ _ _ Hstep) as [_ Hlen].
      rewrite Hseen in Hlen. by destruct (st_heap st1).
    + simpl in Hstep. destruct (st_e st); [|by simplify_eq].
      destruct (modify _ _ _) as [heap'|] eqn:Hm; simplify_eq/=.
      apply modify_inv in Hm as [_ ->]. by apply rooted_alter.
  - simplify_eq/=. destruct Hd as (? & [= <-] & _ & Hc1). by eapply (IH _ seen d).
  - simplify_eq/=. by eapply (IH _ seen d).
  - simplify_eq/=. by eapply (IH _ seen d).
Qed.

Lemma rooted_ancestor st j :
  wf st → rooted (st_heap st) → j < length (st_heap st) → ancestor (st_heap st) j 0.
Proof.
  intros Hwf Hr. induction (lt_wf j) as [j _ IH]. intros Hj.
  destruct (lookup_lt_is_Some_2 _ _ Hj) as [n Hn].
  destruct (Node_Parent n) as [i|] eqn:Hp.
  - pose proof (wf_parent _ Hwf _ _ _ Hn Hp) as Hij.
    eapply ancestor_up; [done|done|]. apply IH; lia.
  - pose proof (Hr _ _ Hn Hp) as Hj0. subst j. apply ancestor_here. by eexists.
Qed.

End OneRoot.

(** X4.  When the tokens have at most one top-level element, every node
    of a returned document is in the tree, and the root is reached from
    it by following [Parent]. *)
Theorem single_root_all_in_tree `{Externals} (s : domParserSettings) r heap d :
  Parse s r = Return (Some (heap, d)) None →
  one_root false 0 (tokens_of r) = true →
  ∀ j, j < length heap →
       in_tree heap d j ∧ ∃ root, Root d = Some root ∧ ancestor heap j root.
Proof.
  intros (_ & _ & _ & st & Hrun & Hwf & -> & ->)%Parse_success Hone j Hj.
  assert (rooted (st_heap st)) as Hr.
  { eapply (run_one_root s _ initial st false 0); done || apply wf_initial. }
  assert (∃ root, Root (st_doc st) = Some root ∧ ancestor (st_heap st) j root) as Hanc.
  { exists 0. split; [|by apply rooted_ancestor].
    rewrite (wf_root _ Hwf). destruct (st_heap st); [simpl in Hj; lia|done]. }
  split; [by apply in_tree_ancestor|done].
Qed.

(** The node of c in [a_b_c]. *)
Lemma single_root_all_in_tree_witness :
  in_tree [ append_Child 2 (append_Child 1 (new_element (plain "a") [] None));
            new_element (plain "b") [] (Some 0);
            new_element (plain "c") [] (Some 0) ]
          (set_Root (Some 0) new_Document) 2.
Proof.
  destruct (single_root_all_in_tree (H := example_Externals) NewDOMParser
              (feed a_b_c io_EOF)
              [ append_Child 2 (append_Child 1 (new_element (plain "a") [] None));
                new_element (plain "b") [] (Some 0);
                new_element (plain "c") [] (Some 0) ]
              (set_Root (Some 0) new_Document) eq_refl eq_refl 2) as [Hin _].
  - simpl. lia.
  - exact Hin.
Defined.

(** ** X5: trimming while parsing and trimming afterwards *)

Section Trim.
Context `{Externals}.
Hypothesis TrimSpace_empty : bytes_TrimSpace "" = "".

Lemma modify_fmap (T g h : Node → Node) i (heap : list Node) :
  (∀ n, T (g n) = h (T n)) →
  fmap (M := list) T <$> modify g i heap = modify h i (T <$> heap).
Proof.
  intros Hgh. unfold modify. rewrite list_lookup_fmap.
  destruct (heap !! i); simpl; [|done].
  f_equal. apply list_fmap_alter. by apply Forall_true.
Qed.

(** One iteration with trimming, on the trimmed state, is one iteration
    with preservation followed by trimming. *)
Lemma step_trim s t st :
  trim_builder <$> step (PreserveWhitespace s true) t st
  = step (PreserveWhitespace s false) t (trim_builder st).
Proof.
  destruct t as [name attr|name|data|data|target inst|data]; simpl.
  - rewrite length_fmap.
    set (el := new_element name attr (st_e st)).
    assert (trim_Text <$> st_heap st ++ [el] = (trim_Text <$> st_heap st) ++ [el]) as Happ.
    { rewrite fmap_app. simpl. unfold trim_Text at 2. simpl.
      by rewrite TrimSpace_empty. }
    destruct (st_e st) as [i|]; simpl.
    + rewrite <- Happ.
      rewrite <- (modify_fmap trim_Text (append_Child (length (st_heap st)))) by done.
      by destruct (modify _ _ _).
    + by rewrite <- Happ.
  - destruct (st_e st) as [i|]; [|done]. unfold load.
    rewrite list_lookup_fmap. by destruct (st_heap st !! i).
  - destruct (st_e st) as [i|]; [|done].
    rewrite <- (modify_fmap trim_Text (set_Text data)) by done.
    by destruct (modify _ _ _).
  - done.
  - done.
  - done.
Qed.

Lemma run_trim s ts st :
  trim_builder <$> run (PreserveWhitespace s true) ts st
  = run (PreserveWhitespace s false) ts (trim_builder st).
Proof.
  revert st. induction ts as [|t ts IH]; intros st; [done|].
  cbn [run]. rewrite <- step_trim.
  destruct (step (PreserveWhitespace s true) t st) as [st1|]; [|done].
  apply IH.
Qed.

End Trim.

(** X5.  Provided [bytes.TrimSpace] maps the empty string to itself:
    parsing with [preserveWhitespace] off gives, on every decoder, the
    result of parsing with it on and then trimming the text of every
    node.  The setting changes nothing else: not the outcome, the error,
    the document's fields or any other field of a node. *)
Theorem trimming_commutes_with_parsing `{Externals} (s : domParserSettings) r :
  bytes_TrimSpace "" = "" →
  Parse (PreserveWhitespace s false) r
  = trim_outcome (Parse (PreserveWhitespace s true) r).
Proof.
  intros Hempty. rewrite !Parse_spec.
  destruct (first_err r) as [e|]; [done|].
  change (run (PreserveWhitespace s false) (tokens_of r) initial)
    with (run (PreserveWhitespace s false) (tokens_of r) (trim_builder initial)).
  rewrite <- (run_trim Hempty s (tokens_of r) initial).
  destruct (run (PreserveWhitespace s true) (tokens_of r) initial) as [st|]; [|done].
  simpl. unfold finish. by destruct (stop_of r) as [[|msg]|].
Qed.

(** [foo_bar], whose text is bar when trimmed. *)
Lemma trimming_commutes_with_parsing_witness :
  Parse (H := example_Externals) (PreserveWhitespace NewDOMParser false) (feed foo_bar io_EOF)
  = trim_outcome (H := example_Externals)
      (Parse (H := example_Externals) (PreserveWhitespace NewDOMParser true)
         (feed foo_bar io_EOF)).
Proof.
  apply (trimming_commutes_with_parsing (H := example_Externals) NewDOMParser
           (feed foo_bar io_EOF)).
  reflexivity.
Defined.

(** ** X6: [Must] around [Parse] *)

(** X6.  [Must(p.Parse(r))] returns a document exactly when [Parse]
    returned it without an error.  On a decoder that delivers tokens and
    then reports an error it never returns nil: it panics with the
    error when the first pull fails, end of input on an empty stream
    included; it panics with the error when the error after the tokens
    is not [io.EOF]; and the nil dereference of an end tag with no
    element open passes through it. *)
Theorem Must_Parse_outcomes `{Externals} (s : domParserSettings) :
  (∀ r dom, Must_Parse s r = Must_returns (Some dom)
            ↔ Parse s r = Return (Some dom) None) ∧
  (∀ ts e rest, Must_Parse s ((ok <$> ts) ++ fail e :: rest) ≠ Must_returns None) ∧
  Must_Parse s [] = Must_panics (error_value io_EOF) ∧
  (∀ e rest, Must_Parse s (fail e :: rest) = Must_panics (error_value e)) ∧
  (∀ t ts e rest,
     e ≠ io_EOF → is_Some (open_depth 0 (t :: ts)) →
     Must_Parse s ((ok <$> t :: ts) ++ fail e :: rest) = Must_panics (error_value e)) ∧
  (∀ t ts e rest,
     open_depth 0 (t :: ts) = None →
     Must_Parse s ((ok <$> t :: ts) ++ fail e :: rest) = Must_panics nil_dereference).
Proof.
  assert (∀ ts, match open_depth 0 ts with
                | Some d' => ∃ st', run s ts initial = Some st' ∧ wf st' ∧
                                    open_chain (st_heap st') (st_e st') d'
                | None => run s ts initial = None
                end) as Hrun.
  { intros ts. by apply (run_open_depth s ts initial 0 wf_initial). }
  split_and!.
  - intros r dom. unfold Must_Parse, Must.
    destruct (Parse s r) as [doc [e|]|]; split; intros; by simplify_eq.
  - intros ts e rest. unfold Must_Parse. rewrite Parse_spec.
    rewrite first_err_tokens, tokens_of_tokens, stop_of_tokens.
    destruct ts as [|t ts]; [done|].
    destruct (run s (t :: ts) initial) as [st|]; [|done].
    by destruct e.
  - done.
  - done.
  - intros t ts e rest He [d Hd]. unfold Must_Parse. rewrite Parse_tokens.
    specialize (Hrun (t :: ts)). rewrite Hd in Hrun. destruct Hrun as (st' & -> & _).
    by destruct e.
  - intros t ts e rest Hd. unfold Must_Parse. rewrite Parse_tokens.
    specialize (Hrun (t :: ts)). rewrite Hd in Hrun. by rewrite Hrun.
Qed.

(** [Must] on [foo_bar] cut short before its end tag. *)
Lemma Must_Parse_outcomes_witness :
  Must_Parse (H := example_Externals) NewDOMParser
      ((ok <$> take 4 foo_bar) ++ fail (SyntaxError "unexpected EOF") :: [])
    = Must_panics (error_value (SyntaxError "unexpected EOF")).
Proof.
  destruct (Must_Parse_outcomes (H := example_Externals) NewDOMParser)
    as (_ & _ & _ & _ & Herror & _).
  apply (Herror (xml.ProcInst "xml" "version='1.0' encoding='UTF-8'")
           (tail (take 4 foo_bar)) (SyntaxError "unexpected EOF") []).
  - discriminate.
  - exists 1. reflexivity.
Defined.

(** ** X7: the document of a node *)

Section DocumentField.
Context `{Externals}.
Variable s : domParserSettings.



End DocumentField.



(** ** X8: what [Parse] reads from the decoder *)

Lemma tokens_of_drop_errors (r : xml.Decoder) :
  tokens_of ((λ p : xml.pull, match p.1 with Some t => (Some t, None) | None => p end) <$> r)
  = tokens_of r.
Proof.
  induction r as [|[[t|] err] r IH]; [done| |done]. csimpl. by rewrite IH.
Qed.

Lemma stop_of_drop_errors (r : xml.Decoder) :
  stop_of ((λ p : xml.pull, match p.1 with Some t => (Some t, None) | None => p end) <$> r)
  = stop_of r.
Proof.
  induction r as [|[[t|] err] r IH]; [done| |done]. csimpl. by rewrite IH.
Qed.

Lemma tokens_of_stop r1 err r2 :
  tokens_of (r1 ++ (None, err) :: r2) = tokens_of (r1 ++ [(None, err)]).
Proof.
  induction r1 as [|[[t|] err1] r1 IH]; [done| |done]. simpl. by rewrite IH.
Qed.

Lemma stop_of_stop r1 err r2 :
  stop_of (r1 ++ (None, err) :: r2) = stop_of (r1 ++ [(None, err)]).
Proof. induction r1 as [|[[t|] err1] r1 IH]; done. Qed.

(** X8.  The loop goes on while the token is not nil and looks at the
    error only once the token is nil.  So an error that a call of
    [Token] after the first returns together with a token is ignored,
    whereas on the first call any error ends the parse, token or not;
    and nothing is read from the decoder after the first nil token. *)
Theorem Parse_reads_until_nil_token `{Externals} (s : domParserSettings) :
  (∀ r, Parse s (drop_errors_with_token r) = Parse s r) ∧
  (∀ t e r, Parse s ((t, Some e) :: r) = Return None (Some e)) ∧
  (∀ r1 err r2, Parse s (r1 ++ (None, err) :: r2) = Parse s (r1 ++ [(None, err)])).
Proof.
  split_and!.
  - intros [|[t err] r]; [done|]. rewrite !Parse_spec. unfold drop_errors_with_token.
    change (first_err ((t, err) :: _)) with err.
    destruct err as [e|]; [done|].
    destruct t as [t|]; [|done].
    cbn [tokens_of stop_of]. by rewrite tokens_of_drop_errors, stop_of_drop_errors.
  - done.
  - intros r1 err r2. rewrite !Parse_spec, tokens_of_stop, stop_of_stop.
    by destruct r1.
Qed.

(** [foo_bar] with an error beside its start tag: the text is parsed all
    the same. *)
Lemma Parse_reads_until_nil_token_witness :
  Parse (H := example_Externals) NewDOMParser
      ((ok <$> take 2 foo_bar)
       ++ (Some (xml.StartElement (plain "foo") []), Some (SyntaxError "ignored"))
       :: (ok <$> drop 3 foo_bar))
  = Parse (H := example_Externals) NewDOMParser (ok <$> foo_bar).
Proof.
  destruct (Parse_reads_until_nil_token (H := example_Externals) NewDOMParser)
    as (Hdrop & _ & _).
  exact (eq_sym (Hdrop ((ok <$> take 2 foo_bar)
       ++ (Some (xml.StartElement (plain "foo") []), Some (SyntaxError "ignored"))
       :: (ok <$> drop 3 foo_bar)))).
Defined.
